(** * clang-analyzer.py: a shallow embedding of the CTU driver

    The development follows the layout of [src/clang-analyzer.py]:

    - Python strings and the [str] methods the driver calls
      ([find], [in], [replace], [os.path.join]);
    - the regular expression of [generate_external_def_map], run by a
      backtracking matcher with the semantics of [re.match];
    - insertion-ordered dictionaries ([ast_path_map]);
    - the effects of the driver (files it writes, lines it prints,
      processes it starts) in a state-and-exception monad;
    - [generate_external_def_map], [compile_file], [main] and the
      module-level script;
    - the thread pool of [main] as a transition system.

    Boundaries of the model.  A Python [str] is a list of characters
    with code points below 256.  The tools that the driver starts are a
    parameter [exec] giving the standard output and standard error of
    every invocation; starting a process and opening a file never fail.
    The compilation database is taken after parsing, as a finite map,
    and the [--exclude] pattern as the test that [re.search] performs.
    Messages of [logging] are left out.  In [main] as a function, a task
    of the pool runs when it is submitted and its outcome is kept for
    [result()]; the module [Pool] treats every order in which the
    workers can finish. *)

From Stdlib Require Import ZArith Ascii String.
From stdpp Require Import base tactics option list sorting strings gmap.

Local Open Scope Z_scope.

(** ** Python strings *)

Abbreviation str := (list ascii).

(** A string literal of the source. *)
Definition py (s : string) : str := list_ascii_of_string s.

Section str_methods.

(** [s.startswith(p)] *)
Fixpoint startswith (s p : str) {struct p} : bool :=
  match p, s with
  | [], _ => true
  | _ :: _, [] => false
  | a :: p', b :: s' => Ascii.eqb a b && startswith s' p'
  end.

(** [s.endswith(p)] *)
Definition endswith (s p : str) : bool := startswith (reverse s) (reverse p).

(** The lowest index at which [sub] occurs in [s], if any. *)
Fixpoint index_of (sub s : str) {struct s} : option nat :=
  if startswith s sub then Some 0%nat
  else match s with
       | [] => None
       | _ :: s' => S <$> index_of sub s'
       end.

(** [s.find(sub)]: the lowest index, or [-1]. *)
Definition str_find (s sub : str) : Z :=
  match index_of sub s with
  | Some i => Z.of_nat i
  | None => -1
  end.

(** [sub in s] *)
Definition str_in (sub s : str) : bool :=
  match index_of sub s with
  | Some _ => true
  | None => false
  end.

(** [s.replace(old, new)] for a non-empty [old]: the scan goes left to
    right; where [old] starts, [new] is written and the scan resumes
    after the occurrence.  [skip] counts the characters of the current
    occurrence that are still to be passed over. *)
Fixpoint replace_scan (old new : str) (skip : nat) (s : str) {struct s} : str :=
  match s with
  | [] => []
  | c :: s' =>
      match skip with
      | S k => replace_scan old new k s'
      | O =>
          if startswith s old
          then new ++ replace_scan old new (length old - 1) s'
          else c :: replace_scan old new 0 s'
      end
  end.

(** [s.replace(old, new)]; an empty [old] matches between all
    characters and at both ends. *)
Definition str_replace (s old new : str) : str :=
  match old with
  | [] => new ++ flat_map (λ c, c :: new) s
  | _ :: _ => replace_scan old new 0 s
  end.

(** [os.path.join(a, b)] of [posixpath]. *)
Definition os_path_join (a b : str) : str :=
  if startswith b (py "/") then b
  else if bool_decide (a = []) || endswith a (py "/") then a ++ b
  else a ++ py "/" ++ b.

End str_methods.

(** ** The regular expression of [generate_external_def_map]

    [re.match] tries the alternatives of a pattern in a fixed order: a
    greedy repetition first takes as many characters as it can and gives
    them back one at a time.  The matcher below follows that order, so it
    returns the groups that [re.match] returns. *)

Module Re.

(** [\s] on a [str] pattern: the characters for which [str.isspace]
    holds, here those below 256. *)
Definition is_space (c : ascii) : bool :=
  let n := nat_of_ascii c in
  ((9 <=? n) && (n <=? 13) || (28 <=? n) && (n <=? 32)
   || (n =? 133) || (n =? 160))%nat.

Definition newline : ascii := ascii_of_nat 10.

Inductive cclass :=
| Lit (c : ascii)   (* the character itself *)
| AnyChar           (* [.] without DOTALL: anything but a newline *)
| NonSpace.         (* [\S] *)

Definition accepts (k : cclass) (c : ascii) : bool :=
  match k with
  | Lit a => Ascii.eqb a c
  | AnyChar => negb (Ascii.eqb c newline)
  | NonSpace => negb (is_space c)
  end.

Inductive item :=
| One (k : cclass)
| Star (k : cclass)        (* greedy [k*] *)
| GroupOpen (n : nat)
| GroupClose (n : nat)
| EndOfString.             (* [$] without MULTILINE *)

(** Greedy [k+] is [k] followed by greedy [k*]. *)
Definition plus (k : cclass) : list item := [One k; Star k].

(** Where the groups opened so far start, and the spans of the closed
    ones; the latest entry of a group comes first. *)
Record captures := {
  opened : list (nat * nat);
  closed : list (nat * (nat * nat))
}.

Definition no_captures : captures := {| opened := []; closed := [] |}.

Fixpoint assoc {A} (n : nat) (l : list (nat * A)) : option A :=
  match l with
  | [] => None
  | (m, a) :: l' => if (n =? m)%nat then Some a else assoc n l'
  end.

Definition open_group (n pos : nat) (cs : captures) : captures :=
  {| opened := (n, pos) :: opened cs; closed := closed cs |}.

Definition close_group (n pos : nat) (cs : captures) : captures :=
  match assoc n (opened cs) with
  | Some b => {| opened := opened cs; closed := (n, (b, pos)) :: closed cs |}
  | None => cs
  end.

(** Greedy repetition of [k], then [next]: one more character is
    tried first, and [next] where that fails. *)
Fixpoint star_loop (k : cclass) (next : nat → str → option captures)
  (pos : nat) (s : str) {struct s} : option captures :=
  match s with
  | c :: s' =>
      if accepts k c then
        match star_loop k next (S pos) s' with
        | Some r => Some r
        | None => next pos s
        end
      else next pos s
  | [] => next pos s
  end.

(** [run pat pos s cs]: match [pat] against [s], the rest of the
    subject from index [pos] on. *)
Fixpoint run (pat : list item) (pos : nat) (s : str) (cs : captures)
  {struct pat} : option captures :=
  match pat with
  | [] => Some cs
  | One k :: pat' =>
      match s with
      | c :: s' => if accepts k c then run pat' (S pos) s' cs else None
      | [] => None
      end
  | Star k :: pat' => star_loop k (λ pos' s', run pat' pos' s' cs) pos s
  | GroupOpen n :: pat' => run pat' pos s (open_group n pos cs)
  | GroupClose n :: pat' => run pat' pos s (close_group n pos cs)
  | EndOfString :: pat' =>
      match s with
      | [] => run pat' pos s cs
      | [c] => if Ascii.eqb c newline then run pat' pos s cs else None
      | _ => None
      end
  end.

(** A match object: the subject and the spans of its groups. *)
Record match_object := { subject : str; spans : list (nat * (nat * nat)) }.

(** [re.match(pat, s)] *)
Definition re_match (pat : list item) (s : str) : option match_object :=
  cs ← run pat 0 s no_captures;
  Some {| subject := s; spans := closed cs |}.

(** [m[n]] for a group that took part in the match. *)
Definition group (m : match_object) (n : nat) : str :=
  match assoc n (spans m) with
  | Some (b, e) => take (e - b) (drop b (subject m))
  | None => []
  end.

(** The pattern of the source: group 1 is [.*], then a space, then
    group 2 is [\S+.cpp], then [$]. *)
Definition def_map_line : list item :=
  [GroupOpen 1; Star AnyChar; GroupClose 1; One (Lit " "); GroupOpen 2]
  ++ plus NonSpace
  ++ [One AnyChar; One (Lit "c"); One (Lit "p"); One (Lit "p");
      GroupClose 2; EndOfString].

End Re.

(** ** Insertion-ordered dictionaries with string keys *)

Abbreviation dict := (list (str * str)).

(** [d[k] = v]: a known key keeps its place, a new one goes last. *)
Fixpoint dict_set (d : dict) (k v : str) : dict :=
  match d with
  | [] => [(k, v)]
  | (k', v') :: d' =>
      if decide (k = k') then (k', v) :: d' else (k', v') :: dict_set d' k v
  end.

(** [d.get(k)] *)
Fixpoint dict_get (d : dict) (k : str) : option str :=
  match d with
  | [] => None
  | (k', v) :: d' => if decide (k = k') then Some v else dict_get d' k
  end.

(** [list(d.keys())], which is also the order of [for p in d] *)
Definition dict_keys (d : dict) : list str := d.*1.

(** ** Reading lines and sorting *)

Definition CR : ascii := ascii_of_nat 13.
Definition LF : ascii := ascii_of_nat 10.

(** Text mode with the default [newline=None]: CR LF and a lone CR are
    read as LF. *)
Fixpoint translate_newlines (s : str) : str :=
  match s with
  | [] => []
  | c :: s' =>
      if Ascii.eqb c CR then
        match s' with
        | d :: s'' => if Ascii.eqb d LF then LF :: translate_newlines s''
                      else LF :: translate_newlines s'
        | [] => [LF]
        end
      else c :: translate_newlines s'
  end.

(** The lines of a text, each with its final LF; the last may lack it. *)
Fixpoint split_lines (cur s : str) : list str :=
  match s with
  | [] => match cur with [] => [] | _ :: _ => [cur] end
  | c :: s' =>
      if Ascii.eqb c LF then (cur ++ [c]) :: split_lines [] s'
      else split_lines (cur ++ [c]) s'
  end.

(** [fd.readlines()] on a file with the given content. *)
Definition readlines (content : str) : list str :=
  split_lines [] (translate_newlines content).

(** The order of [str]: lexicographic by code point. *)
Fixpoint str_leb (a b : str) : bool :=
  match a, b with
  | [], _ => true
  | _ :: _, [] => false
  | x :: a', y :: b' =>
      if (nat_of_ascii x <? nat_of_ascii y)%nat then true
      else if Ascii.eqb x y then str_leb a' b' else false
  end.

(** [sorted(l)] for a list of strings. *)
Definition sorted (l : list str) : list str :=
  merge_sort (λ a b, Is_true (str_leb a b)) l.

(** ** Effects of the driver *)

(** A call of [subprocess.run]: the argument vector and [cwd=]. *)
Record Invocation := { argv : list str; run_cwd : option str }.

(** What a finished process leaves: its standard output and error. *)
Record ProcOut := { proc_stdout : str; proc_stderr : str }.

(** The files the driver wrote, the lines it printed and the processes
    it ran, oldest first. *)
Record World := {
  fs : gmap str str;
  printed : list str;
  procs : list (Invocation * ProcOut)
}.

Inductive exn :=
| KeyError (key : str)             (* a missing dictionary key *)
| Exception (msg : str)            (* [raise Exception(msg)] *)
| FileNotFoundError (name : str).  (* reading a file that is not there *)

Inductive result (A : Type) :=
| Ok (a : A)
| Raise (e : exn).
Arguments Ok {A} a.
Arguments Raise {A} e.

Definition M (A : Type) : Type := World → result A * World.

Global Instance M_ret : MRet M := λ A a w, (Ok a, w).

Global Instance M_bind : MBind M := λ A B f m w,
  match m w with
  | (Ok a, w') => f a w'
  | (Raise e, w') => (Raise e, w')
  end.

Definition raise {A} (e : exn) : M A := λ w, (Raise e, w).

(** [print(s)] *)
Definition print (s : str) : M unit := λ w,
  (Ok (), {| fs := fs w; printed := printed w ++ [s]; procs := procs w |}).

Definition set_file (name content : str) (w : World) : World :=
  {| fs := <[name := content]> (fs w); printed := printed w; procs := procs w |}.

(** [open(name, w)]: the file is created or emptied. *)
Definition open_w (name : str) : M unit := λ w, (Ok (), set_file name [] w).

(** [fd.write(s)] on a file opened for writing or appending. *)
Definition write (name s : str) : M unit := λ w,
  (Ok (), set_file name (default [] (fs w !! name) ++ s) w).

(** [open(name).read()] *)
Definition read (name : str) : M str := λ w,
  match fs w !! name with
  | Some content => (Ok content, w)
  | None => (Raise (FileNotFoundError name), w)
  end.

(** [pool.submit(task)]: the future of a task that has run; its outcome,
    a value or an exception, is kept for [result()]. *)
Definition submit {A} (task : M A) : M (result A) := λ w,
  let '(r, w') := task w in (Ok r, w').

(** [future.result()] *)
Definition future_result {A} (r : result A) : M A :=
  match r with
  | Ok a => mret a
  | Raise e => raise e
  end.

(** [for x in l: body(x)] *)
Fixpoint for_each {A} (l : list A) (body : A → M unit) : M unit :=
  match l with
  | [] => mret ()
  | x :: l' => body x ;; for_each l' body
  end.

(** ** The driver *)

(** [CompileCommand] of the source. *)
Record CompileCommand := {
  cmdline : list str;
  directory : str;
  path : str
}.

(** The parsed command line: [args] of the source.  [exclude] stands for
    a non-empty pattern and holds its [re.search] as a test. *)
Record Args := {
  source_dir : str;
  llvm_bin_dir : option str;
  exclude : option (str → bool);
  files : list str
}.

Section driver.

(** The tools: what a process prints, given what happened before. *)
Variable exec : World → Invocation → ProcOut.
(** [os.getcwd()] *)
Variable cwd : str.
(** [CompileCommands._cmds] after parsing [compile_commands.json]. *)
Variable commands : gmap str CompileCommand.
Variable args : Args.

(** [call(cmdline, **kwargs)] *)
Definition call (inv : Invocation) : M ProcOut := λ w,
  let out := exec w inv in
  (Ok out, {| fs := fs w; printed := printed w;
              procs := procs w ++ [(inv, out)] |}).

(** [CompileCommands.find] *)
Definition find (p : str) : M CompileCommand :=
  match commands !! p with
  | Some cmd => mret cmd
  | None => raise (KeyError p)
  end.

(** [llvm_binary_path]; an empty directory is false like [None]. *)
Definition llvm_binary_path (filename : str) : str :=
  match llvm_bin_dir args with
  | Some (c :: d) => os_path_join (c :: d) filename
  | _ => filename
  end.

Definition main_marker : str := py "c:@F@main#I#".
Definition org_map : str := py "./externalDefMap.txt.org".
Definition final_map : str := py "./externalDefMap.txt".

(** [line.replace(p, empty)] where [p] is [os.getcwd()] and a slash. *)
Definition strip_cwd (line : str) : str :=
  str_replace line (cwd ++ py "/") [].

(** The body of the loop over the lines of the intermediate map. *)
Definition def_map_line_step (paths : dict) (line : str) : M unit :=
  let line := strip_cwd line in
  match Re.re_match Re.def_map_line line with
  | None => raise (Exception (py "illegal line: " ++ line))
  | Some m =>
      if 0 <=? str_find (Re.group m 1) main_marker then mret ()
      else
        match dict_get paths (Re.group m 2) with
        | None =>
            for_each (dict_keys paths) print ;;
            raise (Exception (line ++ py ": file '" ++ Re.group m 2
                               ++ py "' not found"))
        | Some ast =>
            write final_map (Re.group m 1 ++ py " " ++ ast ++ [LF])
        end
  end.

(** [generate_external_def_map(args, paths)] *)
Definition generate_external_def_map (paths : dict) : M unit :=
  let non_test_paths :=
    filter (λ p, str_find p (py "test.cc") < 0) (dict_keys paths) in
  open_w org_map ;;
  out ← call {| argv := [llvm_binary_path (py "clang-extdef-mapping-12");
                         py "-p"; py "."] ++ sorted non_test_paths;
                run_cwd := None |} ;
  write org_map (proc_stdout out) ;;
  content ← read org_map ;
  open_w final_map ;;
  for_each (readlines content) (def_map_line_step paths).

(** The comprehension that keeps every [x != -c] of [cmd.cmdline],
    followed by [cmdline[1:]]. *)
Definition rest_of_cmdline (cmd : CompileCommand) : list str :=
  tail (filter (λ x, x ≠ py "-c") (cmdline cmd)).

(** The argument vector that [compile_file] builds. *)
Definition emit_ast_argv (ast_path : str) (cmd : CompileCommand) : list str :=
  [llvm_binary_path (py "clang++")]
  ++ [py "-emit-ast"; py "-o"; os_path_join cwd ast_path]
  ++ rest_of_cmdline cmd.

(** [compile_file(cc_path)], a closure of [main] over [ast_path_map]. *)
Definition compile_file (ast_path_map : dict) (cc_path : str) : M unit :=
  match dict_get ast_path_map cc_path with
  | None => raise (KeyError cc_path)
  | Some ast_path =>
      cmd ← find cc_path ;
      call {| argv := emit_ast_argv ast_path cmd;
              run_cwd := Some (directory cmd) |} ;;
      mret ()
  end.

(** The argument vector of an analysis run. *)
Definition analyze_argv (cmd : CompileCommand) : list str :=
  [llvm_binary_path (py "clang++");
   py "--analyze";
   py "-Xclang";
   py "-analyzer-config";
   py "-Xclang";
   py "experimental-enable-naive-ctu-analysis=true";
   py "-Xclang";
   py "-analyzer-config";
   py "-Xclang";
   py "ctu-dir=" ++ source_dir args;
   py "-Xclang";
   py "-analyzer-output=plist-multi-file"]
  ++ rest_of_cmdline cmd.

Definition analyze_invocation (cmd : CompileCommand) : Invocation :=
  {| argv := analyze_argv cmd; run_cwd := Some (directory cmd) |}.

(** The test on the standard error of an analysis run. *)
Definition flagged (stderr : str) : bool :=
  str_in (py "error") stderr
  || str_in (py "warning") stderr
  || str_in (py "critical") stderr.

(** The loop over [args.files] that runs the analyzer; [fixNeeded] is
    the report built so far. *)
Fixpoint analysis (l : list str) (fixNeeded : str) : M str :=
  match l with
  | [] => mret fixNeeded
  | cc_path :: rest =>
      cmd ← find cc_path ;
      cmd_output ← call (analyze_invocation cmd) ;
      analysis rest
        (if flagged (proc_stderr cmd_output)
         then fixNeeded ++ proc_stderr cmd_output
         else fixNeeded)
  end.

Definition results_file : str := py "results.txt".

(** The end of [main]: the value returned and the results file. *)
Definition report (fixNeeded : str) : M Z :=
  if bool_decide (fixNeeded = []) then mret 0
  else write results_file fixNeeded ;; mret (-1).

(** [args.files] after the [--exclude] filter. *)
Definition selected_files : list str :=
  match exclude args with
  | Some search => filter (λ x, search x = false) (files args)
  | None => files args
  end.

(** [ast_path_map] as the first loop of [main] fills it. *)
Definition build_ast_path_map (l : list str) : dict :=
  foldl (λ d cc_path, dict_set d cc_path (cc_path ++ py ".ast")) [] l.

(** The files for which an AST task is submitted. *)
Definition ast_jobs (l : list str) : list str :=
  filter (λ cc_path, ¬ (str_find cc_path (py "build_info") >= 0)) l.

(** The tasks given to the pool, in the order of submission. *)
Definition phase_one_tasks (l : list str) : list (M unit) :=
  let ast_path_map := build_ast_path_map l in
  generate_external_def_map ast_path_map
  :: map (compile_file ast_path_map) (ast_jobs l).

(** [results.append(pool.submit(...))] for every task. *)
Fixpoint submit_all (tasks : list (M unit)) : M (list (result unit)) :=
  match tasks with
  | [] => mret []
  | t :: tasks' => r ← submit t ; rs ← submit_all tasks' ; mret (r :: rs)
  end.

(** [main()] *)
Definition main : M Z :=
  let l := selected_files in
  results ← submit_all (phase_one_tasks l) ;
  for_each results future_result ;;
  fixNeeded ← analysis l [] ;
  report fixNeeded.

(** How the interpreter ends. *)
Inductive ending :=
| SystemExit (code : Z)    (* [sys.exit(code)] was reached *)
| Uncaught (e : exn).      (* an exception left the script *)

(** The last two lines of the script: [r = main()], [sys.exit(1)]. *)
Definition script (w : World) : ending * World :=
  match main w with
  | (Ok r, w') => (SystemExit 1, w')
  | (Raise e, w') => (Uncaught e, w')
  end.

(** The exit status of the process: the argument of [sys.exit], or 1
    after a traceback. *)
Definition exit_status (e : ending) : Z :=
  match e with
  | SystemExit code => code
  | Uncaught _ => 1
  end.

End driver.


(** The report that the analysis runs [runs] leave: the standard error
    of the flagged ones, in order. *)
Definition report_of (runs : list (Invocation * ProcOut)) : str :=
  concat (map (λ run, proc_stderr run.2)
            (filter (λ run, flagged (proc_stderr run.2) = true) runs)).

(** The content of the final map in a world. *)
Definition final_map_content (w : World) : str :=
  default [] (fs w !! final_map).

(** ** The thread pool of [main] as a transition system

    [main] submits the tasks of phase one to a pool of 16 workers, then
    calls [result()] on every future in the order of submission, then
    runs the analyzer file by file.  A worker takes the oldest task that
    is waiting; which worker finishes first is not determined.  The
    outcome of task [i] is [outcomes !! i]; [nfiles] is the number of
    files of the analysis loop. *)

Module Pool.

Definition max_workers : nat := 16.

(** Where the main thread is. *)
Inductive pc :=
| Submitting (j : nat)     (* about to submit task [j] *)
| Awaiting (i : nat)       (* about to call [result()] on future [i] *)
| Analysing (k : nat)      (* about to run the analyzer on file [k] *)
| Propagated (e : exn)     (* [result()] raised [e] out of [main] *)
| Returned.

Inductive event :=
| TaskStarted (i : nat)
| TaskDone (i : nat)
| AnalyzerStarted (k : nat).

Record state := {
  at_pc : pc;
  started : nat;             (* tasks [0 .. started-1] left the queue *)
  finished : gset nat;       (* tasks that completed or raised *)
  trace : list event
}.

Definition init : state :=
  {| at_pc := Submitting 0; started := 0; finished := ∅; trace := [] |}.

Inductive action :=
| Start            (* a free worker takes the next waiting task *)
| Finish (i : nat) (* the worker running task [i] is done with it *)
| MainStep.        (* the main thread takes its next step *)

Section semantics.
Variable outcomes : list (result unit).
Variable nfiles : nat.

Definition ntasks : nat := length outcomes.

Definition submitted (st : state) : nat :=
  match at_pc st with
  | Submitting j => j
  | _ => ntasks
  end.

Definition goto (p : pc) (st : state) : state :=
  {| at_pc := p; started := started st; finished := finished st;
     trace := trace st |}.

(** The next step of the main thread; [None] while it is blocked in
    [result()] or after it has left [main]. *)
Definition main_step (st : state) : option state :=
  match at_pc st with
  | Submitting j =>
      if decide (j < ntasks)%nat then Some (goto (Submitting (S j)) st)
      else Some (goto (Awaiting 0) st)
  | Awaiting i =>
      match outcomes !! i with
      | None => Some (goto (Analysing 0) st)
      | Some r =>
          if decide (i ∈ finished st) then
            match r with
            | Ok _ => Some (goto (Awaiting (S i)) st)
            | Raise e => Some (goto (Propagated e) st)
            end
          else None
      end
  | Analysing k =>
      if decide (k < nfiles)%nat then
        Some {| at_pc := Analysing (S k); started := started st;
                finished := finished st;
                trace := trace st ++ [AnalyzerStarted k] |}
      else Some (goto Returned st)
  | Propagated _ | Returned => None
  end.

Definition do_action (a : action) (st : state) : option state :=
  match a with
  | Start =>
      if decide (started st < submitted st
                 ∧ started st - size (finished st) < max_workers)%nat
      then Some {| at_pc := at_pc st; started := S (started st);
                   finished := finished st;
                   trace := trace st ++ [TaskStarted (started st)] |}
      else None
  | Finish i =>
      if decide ((i < started st)%nat ∧ i ∉ finished st)
      then Some {| at_pc := at_pc st; started := started st;
                   finished := {[i]} ∪ finished st;
                   trace := trace st ++ [TaskDone i] |}
      else None
  | MainStep => main_step st
  end.

(** A schedule is a list of actions, each enabled in its turn. *)
Fixpoint run_schedule (sched : list action) (st : state) : option state :=
  match sched with
  | [] => Some st
  | a :: sched' => st' ← do_action a st; run_schedule sched' st'
  end.

Definition reachable (st : state) : Prop :=
  ∃ sched, run_schedule sched init = Some st.

(** The exception of the first future that raised, if one did. *)
Fixpoint first_failure (rs : list (result unit)) : option exn :=
  match rs with
  | [] => None
  | Ok _ :: rs' => first_failure rs'
  | Raise e :: _ => Some e
  end.

(** *** The invariant of the pool *)

(** Every task of phase one is finished and did not raise. *)
Definition all_ok (st : state) : Prop :=
  ∀ j, (j < ntasks)%nat → j ∈ finished st ∧ outcomes !! j = Some (Ok ()).

(** No analyzer has been started. *)
Definition no_analysis (st : state) : Prop :=
  ∀ k, AnalyzerStarted k ∉ trace st.

Definition pc_inv (st : state) : Prop :=
  match at_pc st with
  | Submitting _ => no_analysis st
  | Awaiting i =>
      no_analysis st
      ∧ ∀ j, (j < i)%nat → j ∈ finished st ∧ outcomes !! j = Some (Ok ())
  | Analysing _ | Returned => all_ok st
  | Propagated e => no_analysis st ∧ first_failure outcomes = Some e
  end.

(** Before an analyzer start, every task is done and went well. *)
Definition barrier (st : state) : Prop :=
  ∀ t1 k t2, trace st = t1 ++ AnalyzerStarted k :: t2 →
    ∀ j, (j < ntasks)%nat →
      TaskDone j ∈ t1 ∧ outcomes !! j = Some (Ok ()).

Definition inv (st : state) : Prop :=
  (∀ i, i ∈ finished st → TaskDone i ∈ trace st)
  ∧ pc_inv st
  ∧ barrier st.

End semantics.

End Pool.

(** ** The claims of the specification, in its own words *)

(** The rest of a rewritten command line as the specification words it:
    the original list without its first token and without any [-c]. *)
Definition claimed_rest (cmd : CompileCommand) : list str :=
  filter (λ x, x ≠ py "-c") (tail (cmdline cmd)).

(** The entry that a line of the intermediate map contributes to the
    final map, if it contributes one: [sym], a space and the AST path
    of [file], for a line that matches with a [sym] free of the marker
    and a [file] known to [paths]. *)
Definition def_map_entry (cwd : str) (paths : dict) (line : str) : option str :=
  m ← Re.re_match Re.def_map_line (strip_cwd cwd line);
  if str_in main_marker (Re.group m 1) then None
  else ast ← dict_get paths (Re.group m 2);
       Some (Re.group m 1 ++ py " " ++ ast ++ [LF]).

(** ** Sample runs *)

Module Sample.

Definition cc (file : string) : CompileCommand :=
  {| cmdline := [py "g++"; py "-O2"; py "-c"; py file];
     directory := py "/proj"; path := py file |}.

Definition commands : gmap str CompileCommand :=
  list_to_map [(py "a.cpp", cc "a.cpp"); (py "b.cpp", cc "b.cpp");
               (py "build_info.cpp", cc "build_info.cpp")].

Definition args (l : list str) : Args :=
  {| source_dir := py "."; llvm_bin_dir := None; exclude := None;
     files := l |}.

Definition nothing : World := {| fs := ∅; printed := []; procs := [] |}.

Definition silent : ProcOut := {| proc_stdout := []; proc_stderr := [] |}.

(** Tools that print nothing. *)
Definition quiet : World → Invocation → ProcOut := λ _ _, silent.

Definition is_analysis (inv : Invocation) : bool :=
  bool_decide (py "--analyze" ∈ argv inv).

(** An analyzer that warns about every file whose name has a [b]. *)
Definition warner : World → Invocation → ProcOut := λ _ inv,
  if is_analysis inv && str_in (py "b") (default [] (last (argv inv)))
  then {| proc_stdout := [];
          proc_stderr := default [] (last (argv inv))
                           ++ py ":3:7: warning: unused variable" ++ [LF] |}
  else silent.

(** A mapping tool that prints the given text. *)
Definition mapper (text : str) : World → Invocation → ProcOut := λ _ inv,
  if is_analysis inv then silent
  else {| proc_stdout := text; proc_stderr := [] |}.

End Sample.

(** ** The compilation database *)

(** An entry of [compile_commands.json] as the schema loads it:
    [CompileCommandJSON] of the source. *)
Module Json.
Record entry := { command : str; directory : str; file : str }.
End Json.

Section compile_commands.

(** [shlex.split]; it raises on a command with an open quote. *)
Variable shlex_split : str → result (list str).

(** The loop of [CompileCommands.__init__] over the loaded entries;
    [cmds] is [self._cmds] so far. *)
Fixpoint load_commands (cmds : gmap str CompileCommand)
  (js : list Json.entry) : result (gmap str CompileCommand) :=
  match js with
  | [] => Ok cmds
  | cmd :: js' =>
      match shlex_split (Json.command cmd) with
      | Ok words =>
          load_commands
            (<[Json.file cmd := {| cmdline := words;
                                   directory := Json.directory cmd;
                                   path := Json.file cmd |}]> cmds) js'
      | Raise e => Raise e
      end
  end.

(** [CompileCommands(path)] for a file that holds the entries [js]. *)
Definition CompileCommands_init (js : list Json.entry)
  : result (gmap str CompileCommand) :=
  load_commands ∅ js.

End compile_commands.

(** The argument vector of the mapping tool, as
    [generate_external_def_map] builds it. *)
Definition mapping_argv (args : Args) (paths : dict) : list str :=
  [llvm_binary_path args (py "clang-extdef-mapping-12"); py "-p"; py "."]
  ++ sorted (filter (λ p, str_find p (py "test.cc") < 0) (dict_keys paths)).

(** A splitter for sample commands: at every space. *)
Fixpoint split_spaces (cur s : str) : list str :=
  match s with
  | [] => match cur with [] => [] | _ :: _ => [cur] end
  | c :: s' =>
      if Ascii.eqb c " " then
        match cur with
        | [] => split_spaces [] s'
        | _ :: _ => cur :: split_spaces [] s'
        end
      else split_spaces (cur ++ [c]) s'
  end.


(** The main thread has left [main]. *)
Definition pool_terminal (st : Pool.state) : Prop :=
  Pool.at_pc st = Pool.Returned ∨ ∃ e, Pool.at_pc st = Pool.Propagated e.

(** Bookkeeping of the pool: a finished task was started, a started task
    was submitted, no more tasks are submitted than there are, and no
    more than [max_workers] tasks are running. *)
Definition pool_wf (outcomes : list (result unit)) (st : Pool.state) : Prop :=
  (∀ i, i ∈ Pool.finished st → (i < Pool.started st)%nat)
  ∧ (Pool.started st ≤ Pool.submitted outcomes st)%nat
  ∧ (Pool.submitted outcomes st ≤ length outcomes)%nat
  ∧ (Pool.started st - size (Pool.finished st) ≤ Pool.max_workers)%nat.
(** *** Facts about prefixes, [find] and [in] *)

Lemma startswith_prefix (s p : str) : startswith s p = true ↔ p `prefix_of` s.
Proof.
  revert s; induction p as [|a p IH]; intros s; simpl.
  - split; [intros _; apply prefix_nil | done].
  - destruct s as [|b s].
    + split; [done | intros H; by apply prefix_nil_not in H].
    + rewrite andb_true_iff, IH. split.
      * intros [Hab Hp]. apply Ascii.eqb_eq in Hab as ->. by apply prefix_cons.
      * intros H. split.
        -- apply Ascii.eqb_eq. by apply prefix_cons_inv_1 in H.
        -- by apply prefix_cons_inv_2 in H.
Qed.

Lemma startswith_app (p t : str) : startswith (p ++ t) p = true.
Proof. apply startswith_prefix. by apply prefix_app_r. Qed.

Lemma startswith_split (s p : str) :
  startswith s p = true → s = p ++ drop (length p) s.
Proof.
  intros [t ->]%startswith_prefix. by rewrite drop_app_length.
Qed.

Lemma str_find_in (s sub : str) : (0 <=? str_find s sub) = str_in sub s.
Proof.
  unfold str_find, str_in. destruct (index_of sub s); [|done].
  apply Z.leb_le. lia.
Qed.

(** [index_of] returns a position where [sub] starts, and no earlier
    position is one. *)
Lemma index_of_Some (sub s : str) (i : nat) :
  index_of sub s = Some i →
  s = take i s ++ sub ++ drop (i + length sub) s.
Proof.
  revert i; induction s as [|c s IH]; intros i; simpl.
  - destruct (startswith [] sub) eqn:E; [|done].
    intros [= <-]. destruct sub; [done | discriminate].
  - destruct (startswith (c :: s) sub) eqn:E.
    + intros [= <-]. simpl. by apply startswith_split.
    + destruct (index_of sub s) as [j|]; [|done].
      intros [= <-]. simpl. f_equal. by apply IH.
Qed.

Lemma index_of_unfold (sub s : str) :
  index_of sub s =
    if startswith s sub then Some 0%nat
    else match s with
         | [] => None
         | _ :: s' => S <$> index_of sub s'
         end.
Proof. by destruct s. Qed.

Lemma index_of_None_cons (sub : str) (c : ascii) (s : str) :
  index_of sub (c :: s) = None →
  startswith (c :: s) sub = false ∧ index_of sub s = None.
Proof.
  simpl. destruct (startswith (c :: s) sub); [done|].
  destruct (index_of sub s); [done|]. done.
Qed.

Lemma index_of_app_here (a sub b : str) :
  index_of sub (a ++ sub ++ b) = Some (length a) →
  ∀ c a', a = c :: a' →
    startswith (a ++ sub ++ b) sub = false ∧
    index_of sub (a' ++ sub ++ b) = Some (length a').
Proof.
  intros H c a' ->. simpl in H.
  destruct (startswith (c :: a' ++ sub ++ b) sub) eqn:E; [done|].
  split; [done|].
  destruct (index_of sub (a' ++ sub ++ b)); simplify_eq/=; done.
Qed.

(** *** Facts about [replace] with an empty replacement *)

Section replace_facts.
Variable old : str.

Lemma replace_scan_skip (k : nat) (s : str) :
  replace_scan old [] k s = replace_scan old [] 0 (drop k s).
Proof.
  revert k; induction s as [|c s IH]; intros [|k]; simpl; auto.
Qed.

(** The equation of the scan, as [str.replace] is usually described. *)
Lemma replace_scan_unfold (s : str) :
  old ≠ [] →
  replace_scan old [] 0 s =
    if startswith s old then replace_scan old [] 0 (drop (length old) s)
    else match s with
         | [] => []
         | c :: s' => c :: replace_scan old [] 0 s'
         end.
Proof.
  intros Hne. destruct s as [|c s]; simpl.
  - destruct old; [done | by simpl].
  - destruct (startswith (c :: s) old) eqn:E; [|done].
    rewrite replace_scan_skip. destruct old as [|a o]; [done|].
    simpl. by rewrite Nat.sub_0_r.
Qed.

Lemma replace_scan_length (k : nat) (s : str) :
  (length (replace_scan old [] k s) ≤ length s)%nat.
Proof.
  revert k; induction s as [|c s IH]; intros [|k]; simpl; try lia.
  - destruct (startswith (c :: s) old); simpl.
    + specialize (IH (length old - 1)%nat). lia.
    + specialize (IH 0%nat). lia.
  - specialize (IH k). lia.
Qed.

Lemma replace_scan_absent (s : str) :
  index_of old s = None → replace_scan old [] 0 s = s.
Proof.
  induction s as [|c s IH]; [done|].
  intros [E H]%index_of_None_cons. simpl. rewrite E. by rewrite IH.
Qed.

Lemma replace_scan_leftmost (a b : str) :
  old ≠ [] →
  index_of old (a ++ old ++ b) = Some (length a) →
  replace_scan old [] 0 (a ++ old ++ b) = a ++ replace_scan old [] 0 b.
Proof.
  intros Hne. induction a as [|c a IH]; intros H.
  - rewrite replace_scan_unfold by done. simpl.
    by rewrite startswith_app, drop_app_length.
  - destruct (index_of_app_here _ _ _ H c a eq_refl) as [E H'].
    rewrite replace_scan_unfold by done. rewrite E. simpl.
    by rewrite IH.
Qed.

Lemma replace_scan_at (s : str) (i : nat) :
  old ≠ [] →
  index_of old s = Some i →
  replace_scan old [] 0 s =
    take i s ++ replace_scan old [] 0 (drop (i + length old) s).
Proof.
  intros Hne H. pose proof (index_of_Some _ _ _ H) as Hs.
  assert (Hi : length (take i s) = i).
  { apply length_take_le. apply (f_equal length) in Hs.
    rewrite !length_app, length_take, length_drop in Hs.
    destruct old; [done|]. simpl in Hs. lia. }
  rewrite Hs at 1. rewrite replace_scan_leftmost; [done..|].
  by rewrite <- Hs, Hi.
Qed.

Lemma replace_scan_shrinks (s : str) :
  old ≠ [] →
  str_in old s = true →
  (length (replace_scan old [] 0 s) < length s)%nat.
Proof.
  intros Hne. unfold str_in. destruct (index_of old s) as [i|] eqn:H; [|done].
  intros _. rewrite (replace_scan_at _ _ Hne H).
  pose proof (index_of_Some _ _ _ H) as Hs.
  pose proof (replace_scan_length 0 (drop (i + length old) s)) as Hl.
  apply (f_equal length) in Hs. rewrite !length_app in Hs.
  rewrite length_app. destruct old; [done|]. simpl in *. lia.
Qed.

End replace_facts.

(** ** Reasoning about the monad *)

Lemma bind_unfold {A B} (m : M A) (f : A → M B) (w : World) :
  (m ≫= f) w =
    match m w with
    | (Ok a, w') => f a w'
    | (Raise e, w') => (Raise e, w')
    end.
Proof. reflexivity. Qed.

Lemma bind_Ok {A B} (m : M A) (f : A → M B) (w w' : World) (b : B) :
  (m ≫= f) w = (Ok b, w') ↔ ∃ a w1, m w = (Ok a, w1) ∧ f a w1 = (Ok b, w').
Proof.
  rewrite bind_unfold. destruct (m w) as [[a|e] w1]; split.
  - intros H. by exists a, w1.
  - by intros (a' & w2 & [= -> ->] & H).
  - done.
  - by intros (a' & w2 & [=] & _).
Qed.

Lemma for_each_app {A} (l1 l2 : list A) (body : A → M unit) (w : World) :
  for_each (l1 ++ l2) body w =
    match for_each l1 body w with
    | (Ok _, w1) => for_each l2 body w1
    | (Raise e, w1) => (Raise e, w1)
    end.
Proof.
  revert w; induction l1 as [|x l1 IH]; intros w; [done|].
  simpl. rewrite !bind_unfold.
  destruct (body x w) as [[[]|e] w1]; [apply IH | done].
Qed.

Lemma for_each_print (l : list str) (w : World) :
  for_each l print w =
    (Ok (), {| fs := fs w; printed := printed w ++ l; procs := procs w |}).
Proof.
  revert w; induction l as [|s l IH]; intros w; simpl.
  - rewrite app_nil_r. by destruct w.
  - rewrite bind_unfold. simpl. rewrite IH. simpl. by rewrite <- app_assoc.
Qed.

(** ** What a match of the line pattern means *)

Section line_pattern.
Import Re.

Lemma star_loop_Some k next pos s r :
  star_loop k next pos s = Some r →
  ∃ n, Forall (λ c, accepts k c = true) (take n s)
       ∧ next (pos + n)%nat (drop n s) = Some r.
Proof.
  revert pos; induction s as [|c s IH]; intros pos; simpl.
  - intros H. exists 0%nat. by rewrite Nat.add_0_r.
  - destruct (accepts k c) eqn:E.
    + destruct (star_loop k next (S pos) s) as [r'|] eqn:Hs.
      * intros [= ->]. destruct (IH _ Hs) as (n & Hall & Hn).
        exists (S n). simpl. split; [by constructor|].
        by rewrite Nat.add_succ_r.
      * intros H. exists 0%nat. by rewrite Nat.add_0_r.
    + intros H. exists 0%nat. by rewrite Nat.add_0_r.
Qed.

(** A line that matches is [sym], a space, [file] and at most a final
    newline, where [file] is one or more characters that are not
    white space, then any character but a newline, then [cpp]; the
    groups are [sym] and [file]. *)
Lemma def_map_line_sound (s : str) (m : match_object) :
  re_match def_map_line s = Some m →
  ∃ sym stem x tail,
    s = sym ++ py " " ++ (stem ++ [x] ++ py "cpp") ++ tail
    ∧ group m 1 = sym
    ∧ group m 2 = stem ++ [x] ++ py "cpp"
    ∧ stem ≠ []
    ∧ Forall (λ c, is_space c = false) stem
    ∧ x ≠ newline
    ∧ Forall (λ c, c ≠ newline) sym
    ∧ (tail = [] ∨ tail = [newline]).
Proof.
  unfold re_match. destruct (run def_map_line 0 s no_captures) as [cs|] eqn:H;
    [|done].
  intros [= <-]. unfold def_map_line, plus in H. cbn [run app] in H.
  apply star_loop_Some in H as (n & Hsym & H). cbn [run accepts] in H.
  destruct (drop n s) as [|sp t] eqn:Ht; [done|].
  destruct (Ascii.eqb " " sp) eqn:Hsp; [|done].
  apply Ascii.eqb_eq in Hsp as <-.
  destruct t as [|c0 t]; [done|].
  destruct (negb (is_space c0)) eqn:Hc0; [|done].
  apply star_loop_Some in H as (k & Hstem & H). cbn [run accepts] in H.
  destruct (drop k t) as [|x t1] eqn:Ht1; [done|].
  destruct (negb (Ascii.eqb x newline)) eqn:Hx; [|done].
  destruct t1 as [|c1 t1]; [done|].
  destruct (Ascii.eqb "c" c1) eqn:Hc1; [|done].
  destruct t1 as [|c2 t1]; [done|].
  destruct (Ascii.eqb "p" c2) eqn:Hc2; [|done].
  destruct t1 as [|c3 tail]; [done|].
  destruct (Ascii.eqb "p" c3) eqn:Hc3; [|done].
  apply Ascii.eqb_eq in Hc1 as <-, Hc2 as <-, Hc3 as <-.
  assert (Htail : tail = [] ∨ tail = [newline]).
  { destruct tail as [|c4 [|c5 tail]]; [by left | | done].
    destruct (Ascii.eqb c4 newline) eqn:E; [|done].
    apply Ascii.eqb_eq in E as ->. by right. }
  assert (Hcs : closed cs = [(2, (S n, S n + (k + 5))); (1, (0, n))]%nat).
  { destruct Htail as [-> | ->]; cbn in H; injection H as <-; cbn;
      repeat f_equal; lia. }
  assert (Hn : length (take n s) = n).
  { apply length_take_le. apply (f_equal length) in Ht.
    rewrite length_drop in Ht. simpl in Ht. lia. }
  assert (Ht' : t = take k t ++ x :: py "cpp" ++ tail).
  { rewrite <- (take_drop k t) at 1. by rewrite Ht1. }
  assert (Hk : length (take k t) = k).
  { apply length_take_le. apply (f_equal length) in Ht1.
    rewrite length_drop in Ht1. simpl in Ht1. lia. }
  exists (take n s), (c0 :: take k t), x, tail.
  split.
  { rewrite <- (take_drop n s) at 1. rewrite Ht. f_equal. simpl.
    do 2 f_equal. rewrite Ht' at 1. by rewrite <- app_assoc. }
  unfold group. cbn [spans subject]. rewrite Hcs. cbn [assoc Nat.eqb].
  split.
  { rewrite Nat.sub_0_r. by rewrite drop_0. }
  split.
  { replace (S n + (k + 5) - S n)%nat with (S (k + 4)) by lia.
    replace (S n) with (n + 1)%nat by lia.
    rewrite <- drop_drop, Ht. cbn [drop take]. f_equal.
    rewrite Ht' at 1. rewrite <- Hk at 1.
    rewrite take_app_add' by done. by cbn. }
  split; [done|].
  split.
  { constructor; [by apply negb_true_iff in Hc0|].
    eapply Forall_impl; [exact Hstem|]. cbn. intros c Hc.
    by apply negb_true_iff in Hc. }
  split.
  { intros ->. by rewrite Ascii.eqb_refl in Hx. }
  split; [|done].
  eapply Forall_impl; [exact Hsym|]. cbn. intros c Hc ->.
  by rewrite Ascii.eqb_refl in Hc.
Qed.

End line_pattern.

(** ** Facts about the driver *)

Lemma str_in_app (sub a b : str) : str_in sub (a ++ sub ++ b) = true.
Proof.
  unfold str_in. induction a as [|c a IH]; simpl.
  - rewrite (index_of_unfold sub (sub ++ b)), startswith_app. done.
  - destruct (startswith (c :: a ++ sub ++ b) sub); [done|].
    destruct (index_of sub (a ++ sub ++ b)); done.
Qed.

(** [sub in s] holds exactly when [sub] is a substring of [s]. *)
Lemma str_in_substring (sub s : str) :
  str_in sub s = true ↔ ∃ a b, s = a ++ sub ++ b.
Proof.
  split.
  - unfold str_in. destruct (index_of sub s) as [i|] eqn:H; [|done].
    intros _. eexists _, _. by apply index_of_Some.
  - intros (a & b & ->). apply str_in_app.
Qed.

Lemma cwd_slash_nonempty (cwd : str) : cwd ++ py "/" ≠ [].
Proof. by destruct cwd. Qed.

Lemma strip_cwd_scan (cwd line : str) :
  strip_cwd cwd line = replace_scan (cwd ++ py "/") [] 0 line.
Proof.
  unfold strip_cwd, str_replace.
  pose proof (cwd_slash_nonempty cwd). by destruct (cwd ++ py "/").
Qed.

Lemma flagged_nonempty (stderr : str) : flagged stderr = true → stderr ≠ [].
Proof. by intros H ->. Qed.

Section driver_facts.
Variable exec : World → Invocation → ProcOut.
Variable cwd : str.
Variable commands : gmap str CompileCommand.
Variable args : Args.

Lemma find_Ok (p : str) (cmd : CompileCommand) (w w' : World) :
  find commands p w = (Ok cmd, w') ↔ commands !! p = Some cmd ∧ w' = w.
Proof.
  unfold find. destruct (commands !! p) as [c|]; split.
  - by intros [= -> ->].
  - by intros [[= ->] ->].
  - done.
  - by intros [[=] _].
Qed.

Lemma report_of_cons run runs :
  report_of (run :: runs) =
    (if flagged (proc_stderr run.2) then proc_stderr run.2 else [])
    ++ report_of runs.
Proof.
  unfold report_of. rewrite filter_cons.
  destruct (flagged (proc_stderr run.2)) eqn:E.
  - rewrite decide_True by done. done.
  - rewrite decide_False by done. done.
Qed.

(** One pass of the analysis loop: an analyzer run per file, in the
    order of the list, and nothing else. *)
Lemma analysis_runs (l : list str) (buf buf' : str) (w w' : World) :
  analysis exec commands args l buf w = (Ok buf', w') →
  ∃ runs,
    procs w' = procs w ++ runs
    ∧ fs w' = fs w
    ∧ printed w' = printed w
    ∧ Forall2 (λ f run, ∃ cmd, commands !! f = Some cmd
                               ∧ run.1 = analyze_invocation args cmd) l runs
    ∧ buf' = buf ++ report_of runs.
Proof.
  revert buf w; induction l as [|f l IH]; intros buf w; simpl.
  - intros [= -> ->]. exists []. rewrite !app_nil_r. by repeat split.
  - intros (cmd & w1 & [Hcmd ->]%find_Ok & H)%bind_Ok.
    apply bind_Ok in H as (out & w2 & Hcall & H).
    unfold call in Hcall. injection Hcall as <- <-.
    apply IH in H as (runs & Hp & Hfs & Hpr & Hall & ->).
    simpl in *.
    exists ((analyze_invocation args cmd,
             exec w (analyze_invocation args cmd)) :: runs).
    rewrite Hp, <- app_assoc. repeat split; [done..| |].
    + constructor; [by exists cmd | done].
    + rewrite report_of_cons. simpl.
      destruct (flagged _); by rewrite <- ?app_assoc.
Qed.

Lemma report_of_nil_iff runs :
  report_of runs = [] ↔
  Forall (λ run, flagged (proc_stderr run.2) = false) runs.
Proof.
  induction runs as [|run runs IH]; [by split|].
  rewrite report_of_cons, Forall_cons, <- IH.
  destruct (flagged (proc_stderr run.2)) eqn:E; simpl.
  - split; [|by intros [[=] _]].
    intros [H _]%app_eq_nil. by apply flagged_nonempty in E.
  - split; [by intros H | by intros [_ H]].
Qed.

Lemma main_returns (w w' : World) (r : Z) :
  main exec cwd commands args w = (Ok r, w') → r = 0 ∨ r = -1.
Proof.
  unfold main.
  intros (rs & w1 & _ & H)%bind_Ok.
  apply bind_Ok in H as ([] & w2 & _ & H).
  apply bind_Ok in H as (buf & w3 & _ & H).
  unfold report in H. case_bool_decide.
  - injection H as <- _. by left.
  - apply bind_Ok in H as ([] & w4 & _ & [= <- _]). by right.
Qed.

Lemma for_each_future_result (rs : list (result unit)) (w : World) :
  for_each rs future_result w =
    match Pool.first_failure rs with
    | Some e => (Raise e, w)
    | None => (Ok (), w)
    end.
Proof.
  induction rs as [|[[]|e] rs IH]; simpl; [done| |done].
  rewrite bind_unfold. simpl. apply IH.
Qed.

End driver_facts.

(** ** The loop over the lines of the intermediate map *)

Section def_map_facts.
Variable cwd : str.
Variable paths : dict.

(** The four ways a line can go. *)
Lemma def_map_line_step_cases (line : str) (w : World) :
  def_map_line_step cwd paths line w =
    match Re.re_match Re.def_map_line (strip_cwd cwd line) with
    | None =>
        (Raise (Exception (py "illegal line: " ++ strip_cwd cwd line)), w)
    | Some m =>
        if str_in main_marker (Re.group m 1) then (Ok (), w)
        else
          match dict_get paths (Re.group m 2) with
          | None =>
              (Raise (Exception (strip_cwd cwd line ++ py ": file '"
                                   ++ Re.group m 2 ++ py "' not found")),
               {| fs := fs w; printed := printed w ++ dict_keys paths;
                  procs := procs w |})
          | Some ast =>
              (Ok (), set_file final_map
                        (default [] (fs w !! final_map)
                           ++ Re.group m 1 ++ py " " ++ ast ++ [LF]) w)
          end
    end.
Proof.
  unfold def_map_line_step.
  destruct (Re.re_match _ _) as [m|]; [|done].
  rewrite str_find_in. destruct (str_in _ _); [done|].
  destruct (dict_get _ _) as [ast|]; [done|].
  rewrite bind_unfold, for_each_print. done.
Qed.

Lemma def_map_loop_emits (lines : list str) (w : World) :
  Forall (λ line, ∃ m,
            Re.re_match Re.def_map_line (strip_cwd cwd line) = Some m
            ∧ (str_in main_marker (Re.group m 1) = true
               ∨ is_Some (dict_get paths (Re.group m 2)))) lines →
  ∃ w', for_each lines (def_map_line_step cwd paths) w = (Ok (), w')
        ∧ final_map_content w' =
            final_map_content w
              ++ concat (omap (def_map_entry cwd paths) lines)
        ∧ printed w' = printed w
        ∧ procs w' = procs w.
Proof.
  intros Hall; revert w.
  induction Hall as [|line lines (m & Hm & Hline) _ IH]; intros w.
  - exists w. simpl. by rewrite app_nil_r.
  - cbn [for_each]. rewrite bind_unfold, def_map_line_step_cases, Hm.
    cbn [omap list_omap]. unfold def_map_entry at 1. rewrite Hm.
    cbn [mbind option_bind].
    destruct (str_in main_marker (Re.group m 1)) eqn:Hmain.
    + apply IH.
    + destruct Hline as [[=] | [ast Hast]]. rewrite Hast.
      cbn [mbind option_bind].
      destruct (IH (set_file final_map
                      (default [] (fs w !! final_map)
                         ++ Re.group m 1 ++ py " " ++ ast ++ [LF]) w))
        as (w' & Hrun & Hcontent & Hpr & Hprocs).
      exists w'. split; [done|]. split; [|done].
      rewrite Hcontent. unfold final_map_content at 1, set_file.
      cbn [fs]. rewrite lookup_insert_eq. cbn [default concat].
      unfold final_map_content, id. by rewrite <- !app_assoc.
Qed.

End def_map_facts.

(** ** Command lines *)

Lemma tail_filter_ne (x : str) (l : list str) :
  head l ≠ Some x →
  tail (filter (λ y, y ≠ x) l) = filter (λ y, y ≠ x) (tail l).
Proof.
  destruct l as [|y l]; [done|]. simpl. intros H.
  rewrite filter_cons_True; [done|]. by intros ->.
Qed.

Lemma flagged_substring (stderr : str) :
  flagged stderr = true ↔
  (∃ a b, stderr = a ++ py "error" ++ b)
  ∨ (∃ a b, stderr = a ++ py "warning" ++ b)
  ∨ (∃ a b, stderr = a ++ py "critical" ++ b).
Proof.
  unfold flagged. rewrite !orb_true_iff, !str_in_substring. tauto.
Qed.

(** ** The pool keeps its invariant *)

Section pool_facts.
Import Pool.
Variable outcomes : list (result unit).
Variable nfiles : nat.

Lemma first_failure_at (rs : list (result unit)) (i : nat) (e : exn) :
  (∀ j, (j < i)%nat → rs !! j = Some (Ok ())) →
  rs !! i = Some (Raise e) →
  first_failure rs = Some e.
Proof.
  revert i; induction rs as [|r rs IH]; intros i Hbefore Hi; [done|].
  destruct i as [|i].
  - by injection Hi as ->.
  - pose proof (Hbefore 0%nat ltac:(lia)) as H0. injection H0 as ->.
    simpl. apply (IH i); [|done].
    intros j Hj. apply (Hbefore (S j)). lia.
Qed.

Lemma first_failure_none (rs : list (result unit)) :
  (∀ j, (j < length rs)%nat → rs !! j = Some (Ok ())) →
  first_failure rs = None.
Proof.
  induction rs as [|r rs IH]; intros H; [done|].
  pose proof (H 0%nat ltac:(simpl; lia)) as H0. injection H0 as ->.
  simpl. apply IH. intros j Hj. apply (H (S j)). simpl. lia.
Qed.

Lemma snoc_split {A} (l t1 t2 : list A) (x y : A) :
  l ++ [x] = t1 ++ y :: t2 →
  (t2 = [] ∧ t1 = l ∧ x = y) ∨ (∃ t2', t2 = t2' ++ [x] ∧ l = t1 ++ y :: t2').
Proof.
  destruct t2 as [|z t2 _] using rev_ind.
  - intros [-> ->]%app_inj_tail. by left.
  - rewrite app_comm_cons, app_assoc. intros [-> ->]%app_inj_tail.
    right. by exists t2.
Qed.

Lemma barrier_snoc_other (st st' : state) (ev : event) :
  trace st' = trace st ++ [ev] →
  (∀ k, ev ≠ AnalyzerStarted k) →
  barrier outcomes st → barrier outcomes st'.
Proof.
  intros Htr Hev Hb t1 k t2 Hsplit. rewrite Htr in Hsplit.
  apply snoc_split in Hsplit as [(_ & _ & ->) | (t2' & _ & Hsplit)].
  - by destruct (Hev k).
  - by eapply Hb.
Qed.

Lemma no_analysis_snoc_other (st st' : state) (ev : event) :
  trace st' = trace st ++ [ev] →
  (∀ k, ev ≠ AnalyzerStarted k) →
  no_analysis st → no_analysis st'.
Proof.
  intros Htr Hev Hno k. rewrite Htr.
  intros [H | H%list_elem_of_singleton]%elem_of_app.
  - by apply (Hno k).
  - by apply (Hev k).
Qed.

Lemma no_analysis_barrier (st : state) :
  no_analysis st → barrier outcomes st.
Proof.
  intros Hno t1 k t2 Hsplit. exfalso. apply (Hno k). rewrite Hsplit.
  apply elem_of_app. right. by left.
Qed.

Lemma inv_init : inv outcomes init.
Proof.
  assert (Hno : no_analysis init) by (intros k H; by apply elem_of_nil in H).
  split; [|split; [done | by apply no_analysis_barrier]].
  intros i H. by apply elem_of_empty in H.
Qed.

Lemma inv_main_step (st st' : state) :
  inv outcomes st → main_step outcomes nfiles st = Some st' →
  inv outcomes st'.
Proof.
  intros (Hdone & Hpc & Hbar). unfold main_step, pc_inv in *.
  destruct (at_pc st) as [j|i|k|e|] eqn:Hat; [| | |done..].
  - (* submitting *)
    case_decide; intros [= <-]; (split; [done|split; [|done]]);
      unfold pc_inv; cbn; [done|]. split; [done|]. intros j' Hj'. lia.
  - (* awaiting *)
    destruct Hpc as [Hno Hbefore].
    destruct (outcomes !! i) as [r|] eqn:Hi.
    + case_decide as Hfin; [|done].
      destruct r as [[]|e]; intros [= <-];
        (split; [done|split; [|done]]); unfold pc_inv; cbn.
      * split; [done|]. intros j' Hj'.
        destruct (decide (j' = i)) as [->|]; [done|].
        apply Hbefore. lia.
      * split; [done|]. apply (first_failure_at _ i); [|done].
        intros j' Hj'. by apply Hbefore.
    + intros [= <-]. split; [done|split; [|done]]. unfold pc_inv; cbn.
      intros j' Hj'. apply Hbefore.
      apply lookup_ge_None in Hi. unfold ntasks in Hj'. lia.
  - (* analysing *)
    case_decide; intros [= <-];
      [|split; [exact Hdone | split; [exact Hpc | exact Hbar]]].
    split; [cbn; intros i Hi; apply elem_of_app; left; by apply Hdone|].
    split; [done|]. intros t1 k' t2. cbn. intros Hsplit.
    apply snoc_split in Hsplit as [(_ & -> & _) | (t2' & _ & Hsplit)].
    * intros j' Hj'. destruct (Hpc j' Hj') as [Hfin Hok]. by split; [apply Hdone|].
    * by eapply Hbar.
Qed.

Lemma inv_do_action (a : action) (st st' : state) :
  inv outcomes st → do_action outcomes nfiles a st = Some st' →
  inv outcomes st'.
Proof.
  destruct a as [|i|]; [| |apply inv_main_step].
  - (* a task starts *)
    intros (Hdone & Hpc & Hbar). cbn. case_decide; [|done]. intros [= <-].
    set (st' := {| at_pc := at_pc st; started := S (started st);
                   finished := finished st;
                   trace := trace st ++ [TaskStarted (started st)] |}).
    assert (Hno : no_analysis st → no_analysis st').
    { by apply (no_analysis_snoc_other st st' (TaskStarted (started st))). }
    split; [intros i Hi; apply elem_of_app; left; by apply Hdone|].
    split; [|by apply (barrier_snoc_other st st' (TaskStarted (started st)))].
    unfold pc_inv in *. cbn.
    destruct (at_pc st); [by apply Hno | | done | | done].
    + destruct Hpc. split; [by apply Hno | done].
    + destruct Hpc. split; [by apply Hno | done].
  - (* a task ends *)
    intros (Hdone & Hpc & Hbar). cbn. case_decide; [|done]. intros [= <-].
    set (st' := {| at_pc := at_pc st; started := started st;
                   finished := {[i]} ∪ finished st;
                   trace := trace st ++ [TaskDone i] |}).
    assert (Hno : no_analysis st → no_analysis st').
    { by apply (no_analysis_snoc_other st st' (TaskDone i)). }
    split.
    { cbn. intros j [->%elem_of_singleton | Hj]%elem_of_union;
        apply elem_of_app; [right; by left | left; by apply Hdone]. }
    split; [|by apply (barrier_snoc_other st st' (TaskDone i))].
    unfold pc_inv, all_ok in *. cbn.
    destruct (at_pc st); [by apply Hno | | | | ].
    + destruct Hpc as [? Hb]. split; [by apply Hno|].
      intros j Hj. destruct (Hb j Hj). split; [apply elem_of_union; by right | done].
    + intros j Hj. destruct (Hpc j Hj). split; [apply elem_of_union; by right | done].
    + destruct Hpc. split; [by apply Hno | done].
    + intros j Hj. destruct (Hpc j Hj). split; [apply elem_of_union; by right | done].
Qed.

Lemma run_schedule_snoc (sched : list action) (a : action) (st : state) :
  run_schedule outcomes nfiles (sched ++ [a]) st =
    run_schedule outcomes nfiles sched st ≫= do_action outcomes nfiles a.
Proof.
  revert st; induction sched as [|b sched IH]; intros st; simpl.
  - by destruct (do_action outcomes nfiles a st).
  - destruct (do_action outcomes nfiles b st); [apply IH | done].
Qed.

Lemma reachable_inv (st : state) :
  reachable outcomes nfiles st → inv outcomes st.
Proof.
  intros [sched H]. revert st H.
  induction sched as [|a sched IH] using rev_ind; intros st.
  - intros [= <-]. apply inv_init.
  - rewrite run_schedule_snoc.
    destruct (run_schedule outcomes nfiles sched init) as [st0|] eqn:H0;
      [|done].
    cbn. intros H. eapply inv_do_action; [|exact H]. by apply IH.
Qed.

End pool_facts.

Lemma submit_all_total (tasks : list (M unit)) (w : World) :
  ∃ rs w1, submit_all tasks w = (Ok rs, w1) ∧ length rs = length tasks.
Proof.
  revert w; induction tasks as [|t tasks IH]; intros w.
  - by exists [], w.
  - cbn [submit_all]. rewrite bind_unfold. unfold submit at 1.
    destruct (t w) as [r w0]. destruct (IH w0) as (rs & w1 & Hrs & Hlen).
    exists (r :: rs), w1. rewrite bind_unfold, Hrs. cbn. by rewrite Hlen.
Qed.

(** * The claims *)

(** ** Stripping the working directory (C7, C10) *)

(** C7, as the code has it.  Stripping the working directory a second
    time changes nothing exactly when the line stripped once holds no
    occurrence of the working directory followed by a slash.  (Taking an
    occurrence out can join the text around it into a new one, so the
    step is not idempotent on every line.) *)
Theorem strip_cwd_twice (cwd line : str) :
  strip_cwd cwd (strip_cwd cwd line) = strip_cwd cwd line
  ↔ str_in (cwd ++ py "/") (strip_cwd cwd line) = false.
Proof.
  split.
  - intros Heq. destruct (str_in _ _) eqn:Hin; [|done].
    apply replace_scan_shrinks in Hin; [|apply cwd_slash_nonempty].
    rewrite <- strip_cwd_scan, Heq in Hin. lia.
  - unfold str_in. destruct (index_of _ _) eqn:H; [done|]. intros _.
    rewrite (strip_cwd_scan cwd (strip_cwd cwd line)).
    by apply replace_scan_absent.
Qed.

(** C7 as stated fails: with the working directory [/ab], the line
    below is stripped to a line that holds [/ab/] again, and a second
    pass removes that too. *)
Lemma strip_cwd_not_idempotent :
  strip_cwd (py "/ab") (py "c:@F@f# /a/ab/b/x.cpp") = py "c:@F@f# /ab/x.cpp"
  ∧ strip_cwd (py "/ab") (py "c:@F@f# /ab/x.cpp") = py "c:@F@f# x.cpp"
  ∧ strip_cwd (py "/ab") (strip_cwd (py "/ab") (py "c:@F@f# /a/ab/b/x.cpp"))
    ≠ strip_cwd (py "/ab") (py "c:@F@f# /a/ab/b/x.cpp").
Proof. by vm_compute. Qed.

(** C10, as the code has it.  The step follows one scan from left to
    right: up to the first occurrence of the working directory and a
    slash the line is kept, the occurrence is dropped wherever it
    stands, and the scan goes on behind it; a line without an
    occurrence is returned as it is. *)
Theorem strip_cwd_scans (cwd line : str) :
  strip_cwd cwd line =
    match index_of (cwd ++ py "/") line with
    | None => line
    | Some i =>
        take i line ++ strip_cwd cwd (drop (i + length (cwd ++ py "/")) line)
    end
  ∧ (str_in (cwd ++ py "/") line = false → strip_cwd cwd line = line).
Proof.
  pose proof (cwd_slash_nonempty cwd) as Hne.
  unfold str_in. rewrite !strip_cwd_scan.
  destruct (index_of (cwd ++ py "/") line) as [i|] eqn:H.
  - split; [|done]. rewrite strip_cwd_scan. by apply replace_scan_at.
  - split; [|intros _]; by apply replace_scan_absent.
Qed.

Lemma strip_cwd_scans_witness :
  str_in (py "/proj" ++ py "/") (py "c:@F@f# a.cpp") = false
  ∧ strip_cwd (py "/proj") (py "c:@F@f# a.cpp") = py "c:@F@f# a.cpp".
Proof.
  split; [reflexivity|].
  apply (proj2 (strip_cwd_scans (py "/proj") (py "c:@F@f# a.cpp"))).
  reflexivity.
Defined.

(** C10 as stated fails twice over.  After the step the line can hold
    the working directory again (first line); and of two occurrences
    that share a slash only the first is dropped: [/src/] stands at
    index 12 of the second line, and [src/] of it is still there
    afterwards. *)
Lemma strip_cwd_leaves_occurrences :
  str_in (py "/ab/") (strip_cwd (py "/ab") (py "c:@F@f# /a/ab/b/x.cpp")) = true
  ∧ startswith (drop 12 (py "c:@F@f# /src/src/x.cpp")) (py "/src/") = true
  ∧ strip_cwd (py "/src") (py "c:@F@f# /src/src/x.cpp") = py "c:@F@f# src/x.cpp".
Proof. by vm_compute. Qed.

(** ** The lines of the external definition map (C3, C5, C6) *)

(** C3, the code at a line that the claim wants rejected.  The file
    name [util.tcpp] does not end in [.cpp], yet the line matches (the
    dot of the pattern stands for any character), no exception is
    raised and an entry for it is written to the final map. *)
Lemma tcpp_line_is_accepted :
  endswith (py "util.tcpp") (py ".cpp") = false
  ∧ def_map_line_step (py "/proj") [(py "util.tcpp", py "util.tcpp.ast")]
      (py "9:c:@F@f# /proj/util.tcpp" ++ [LF]) Sample.nothing
    = (Ok (), set_file final_map (py "9:c:@F@f# util.tcpp.ast" ++ [LF])
                Sample.nothing).
Proof. by vm_compute. Qed.

(** C5, as the code has it.  A line that matches the pattern, whose
    symbol id is free of the main marker and whose file name is not a
    key of the AST path map makes the step print every key of the map,
    in the order of the map, and then raise the not-found exception;
    nothing is written.  When the lines before it went through, the
    loop over the lines ends the same way. *)
Theorem unresolved_line_fails (cwd : str) (paths : dict) (line : str)
    (m : Re.match_object) (w : World) :
  Re.re_match Re.def_map_line (strip_cwd cwd line) = Some m →
  str_in main_marker (Re.group m 1) = false →
  dict_get paths (Re.group m 2) = None →
  let failure : result unit * World :=
    (Raise (Exception (strip_cwd cwd line ++ py ": file '"
                         ++ Re.group m 2 ++ py "' not found")),
     {| fs := fs w; printed := printed w ++ dict_keys paths;
        procs := procs w |}) in
  def_map_line_step cwd paths line w = failure
  ∧ ∀ before after w0,
      for_each before (def_map_line_step cwd paths) w0 = (Ok (), w) →
      for_each (before ++ line :: after) (def_map_line_step cwd paths) w0
      = failure.
Proof.
  intros Hm Hmain Hget failure.
  assert (Hstep : def_map_line_step cwd paths line w = failure).
  { by rewrite def_map_line_step_cases, Hm, Hmain, Hget. }
  split; [done|]. intros before after w0 Hbefore.
  rewrite for_each_app, Hbefore. cbn [for_each].
  by rewrite bind_unfold, Hstep.
Qed.

Lemma unresolved_line_fails_witness :
  def_map_line_step (py "/proj") [(py "a.cpp", py "a.cpp.ast")]
    (py "9:c:@F@g# /proj/b.cpp" ++ [LF]) Sample.nothing
  = (Raise (Exception (py "9:c:@F@g# b.cpp" ++ [LF]
                         ++ py ": file 'b.cpp' not found")),
     {| fs := ∅; printed := [py "a.cpp"]; procs := [] |}).
Proof.
  refine (proj1 (unresolved_line_fails (py "/proj")
                   [(py "a.cpp", py "a.cpp.ast")]
                   (py "9:c:@F@g# /proj/b.cpp" ++ [LF])
                   {| Re.subject := py "9:c:@F@g# b.cpp" ++ [LF];
                      Re.spans := [(2, (10, 15)); (1, (0, 9))]%nat |}
                   Sample.nothing _ _ _)); reflexivity.
Defined.

(** C5 as stated fails: the file of the second line is not in the AST
    path map, but its symbol id holds the main marker, so the line is
    dropped before the lookup; the build ends well and prints nothing. *)
Lemma main_line_is_never_looked_up :
  dict_get [(py "a.cpp", py "a.cpp.ast")] (py "zz.cpp") = None
  ∧ (λ m, Re.group m 2)
      <$> Re.re_match Re.def_map_line
            (strip_cwd (py "/proj") (py "c:@F@main#I# /proj/zz.cpp" ++ [LF]))
    = Some (py "zz.cpp")
  ∧ ∃ w', generate_external_def_map
            (Sample.mapper (py "9:c:@F@f# /proj/a.cpp" ++ [LF]
                              ++ py "c:@F@main#I# /proj/zz.cpp" ++ [LF]))
            (py "/proj") (Sample.args [py "a.cpp"])
            [(py "a.cpp", py "a.cpp.ast")] Sample.nothing
          = (Ok (), w')
          ∧ printed w' = []
          ∧ final_map_content w' = py "9:c:@F@f# a.cpp.ast" ++ [LF].
Proof.
  split; [reflexivity|]. split; [reflexivity|].
  eexists. split; [vm_compute; reflexivity|]. by vm_compute.
Qed.

(** C6.  A line that matches the pattern is its symbol id (group 1), a
    space, its file name (group 2) and at most a final newline.  When
    the symbol id holds the main marker the step does nothing at all;
    when it does not and the file name is a key of the AST path map,
    the step appends exactly the entry made of the symbol id, a space,
    the mapped AST path and a newline.
    Over a whole intermediate map of such lines the loop ends well and
    the final map gains the entries of the lines without the marker, in
    order, and nothing else. *)
Theorem main_symbol_filter (cwd : str) (paths : dict) :
  (∀ line m w,
     Re.re_match Re.def_map_line (strip_cwd cwd line) = Some m →
     (∃ tail, strip_cwd cwd line
              = Re.group m 1 ++ py " " ++ Re.group m 2 ++ tail
              ∧ (tail = [] ∨ tail = [LF]))
     ∧ (str_in main_marker (Re.group m 1) = true →
        def_map_line_step cwd paths line w = (Ok (), w)
        ∧ def_map_entry cwd paths line = None)
     ∧ (str_in main_marker (Re.group m 1) = false →
        ∀ ast, dict_get paths (Re.group m 2) = Some ast →
          let entry := Re.group m 1 ++ py " " ++ ast ++ [LF] in
          def_map_line_step cwd paths line w
          = (Ok (), set_file final_map (final_map_content w ++ entry) w)
          ∧ def_map_entry cwd paths line = Some entry))
  ∧ (∀ lines w,
       Forall (λ line, ∃ m,
                 Re.re_match Re.def_map_line (strip_cwd cwd line) = Some m
                 ∧ (str_in main_marker (Re.group m 1) = true
                    ∨ is_Some (dict_get paths (Re.group m 2)))) lines →
       ∃ w', for_each lines (def_map_line_step cwd paths) w = (Ok (), w')
             ∧ final_map_content w' =
                 final_map_content w
                   ++ concat (omap (def_map_entry cwd paths) lines)).
Proof.
  split.
  - intros line m w Hm. split; [|split].
    + destruct (def_map_line_sound _ _ Hm)
        as (sym & stem & x & tail & Hs & H1 & H2 & _ & _ & _ & _ & Htail).
      exists tail. by rewrite H1, H2.
    + intros Hmain. rewrite def_map_line_step_cases. unfold def_map_entry.
      rewrite Hm. cbn [mbind option_bind]. by rewrite Hmain.
    + intros Hmain ast Hast entry.
      rewrite def_map_line_step_cases. unfold def_map_entry.
      rewrite Hm. cbn [mbind option_bind]. rewrite Hmain, Hast. done.
  - intros lines w Hall.
    destruct (def_map_loop_emits cwd paths lines w Hall)
      as (w' & Hrun & Hcontent & _).
    by exists w'.
Qed.

Lemma main_symbol_filter_witness :
  ∃ w', for_each [py "9:c:@F@f# /proj/a.cpp" ++ [LF];
                  py "c:@F@main#I# /proj/a.cpp" ++ [LF];
                  py "c:@F@main#I# /proj/zz.cpp" ++ [LF];
                  py "9:c:@F@g# /proj/b.cpp" ++ [LF]]
          (def_map_line_step (py "/proj")
             [(py "a.cpp", py "a.cpp.ast"); (py "b.cpp", py "b.cpp.ast")])
          Sample.nothing
        = (Ok (), w')
        ∧ final_map_content w'
          = py "9:c:@F@f# a.cpp.ast" ++ [LF] ++ py "9:c:@F@g# b.cpp.ast" ++ [LF].
Proof.
  apply (proj2 (main_symbol_filter (py "/proj")
                  [(py "a.cpp", py "a.cpp.ast"); (py "b.cpp", py "b.cpp.ast")])).
  repeat constructor; eexists; (split; [reflexivity|]);
    first [left; reflexivity | right; eexists; reflexivity].
Defined.

(** ** Rewritten command lines (C8) *)

(** C8, as the code has it.  The process that [compile_file] starts and
    the process of an analysis run are given the path of the tool, the
    fixed flags of the purpose, and then the stored argument list from
    which first every [-c] and then the first token left were taken
    out; both run in the directory of the command.  When the stored
    list does not begin with [-c] this is the stored list without its
    first token and without any [-c].  The stored command is the same
    afterwards. *)
Theorem rewritten_command_lines
    (exec : World → Invocation → ProcOut) (cwd : str)
    (commands : gmap str CompileCommand) (args : Args)
    (cc_path : str) (cmd : CompileCommand) (w : World) :
  commands !! cc_path = Some cmd →
  let tool := llvm_binary_path args (py "clang++") in
  let rest := tail (filter (λ x, x ≠ py "-c") (cmdline cmd)) in
  let started inv : World :=
    {| fs := fs w; printed := printed w;
       procs := procs w ++ [(inv, exec w inv)] |} in
  (∀ paths ast_path,
     dict_get paths cc_path = Some ast_path →
     compile_file exec cwd commands args paths cc_path w
     = (Ok (), started
                 {| argv := [tool]
                            ++ [py "-emit-ast"; py "-o";
                                os_path_join cwd ast_path]
                            ++ rest;
                    run_cwd := Some (directory cmd) |}))
  ∧ (∃ fixNeeded,
       analysis exec commands args [cc_path] [] w
       = (Ok fixNeeded,
          started
            {| argv := [tool]
                       ++ [py "--analyze";
                           py "-Xclang"; py "-analyzer-config";
                           py "-Xclang";
                           py "experimental-enable-naive-ctu-analysis=true";
                           py "-Xclang"; py "-analyzer-config";
                           py "-Xclang"; py "ctu-dir=" ++ source_dir args;
                           py "-Xclang";
                           py "-analyzer-output=plist-multi-file"]
                       ++ rest;
               run_cwd := Some (directory cmd) |}))
  ∧ (head (cmdline cmd) ≠ Some (py "-c") → rest = claimed_rest cmd)
  ∧ (∀ w', find commands cc_path w' = (Ok cmd, w')).
Proof.
  intros Hcmd tool rest started. repeat split.
  - intros paths ast_path Hast. unfold compile_file, find.
    rewrite Hast, Hcmd. done.
  - eexists. cbn [analysis]. unfold find. rewrite Hcmd. done.
  - intros Hhead. by apply tail_filter_ne.
  - intros w'. unfold find. by rewrite Hcmd.
Qed.

Lemma rewritten_command_lines_witness :
  compile_file Sample.quiet (py "/proj") Sample.commands
    (Sample.args [py "a.cpp"]) [(py "a.cpp", py "a.cpp.ast")] (py "a.cpp")
    Sample.nothing
  = (Ok (),
     {| fs := ∅; printed := [];
        procs := [({| argv := [py "clang++"; py "-emit-ast"; py "-o";
                               py "/proj/a.cpp.ast"; py "-O2"; py "a.cpp"];
                      run_cwd := Some (py "/proj") |}, Sample.silent)] |}).
Proof.
  refine (proj1 (rewritten_command_lines Sample.quiet (py "/proj")
                   Sample.commands (Sample.args [py "a.cpp"]) (py "a.cpp")
                   (Sample.cc "a.cpp") Sample.nothing _)
            [(py "a.cpp", py "a.cpp.ast")] (py "a.cpp.ast") _);
    reflexivity.
Defined.

(** C8 as stated fails for a stored list that begins with [-c]: the
    code drops the [-c] and then the compiler name as well, where the
    claim keeps the compiler name. *)
Lemma leading_c_flag_costs_a_token :
  rest_of_cmdline {| cmdline := [py "-c"; py "g++"; py "a.cpp"];
                     directory := py "/proj"; path := py "a.cpp" |}
  = [py "a.cpp"]
  ∧ claimed_rest {| cmdline := [py "-c"; py "g++"; py "a.cpp"];
                    directory := py "/proj"; path := py "a.cpp" |}
    = [py "g++"; py "a.cpp"]
  ∧ analyze_argv (Sample.args [py "a.cpp"])
      {| cmdline := [py "-c"; py "g++"; py "a.cpp"];
         directory := py "/proj"; path := py "a.cpp" |}
    = [py "clang++"; py "--analyze";
       py "-Xclang"; py "-analyzer-config";
       py "-Xclang"; py "experimental-enable-naive-ctu-analysis=true";
       py "-Xclang"; py "-analyzer-config";
       py "-Xclang"; py "ctu-dir=.";
       py "-Xclang"; py "-analyzer-output=plist-multi-file";
       py "a.cpp"].
Proof. by vm_compute. Qed.

(** ** The analysis phase (C2, C4) *)

(** C2, as the code has it.  The test for [build_info] guards the
    submission of AST tasks only: a file gets an AST task exactly when
    it is in the list and its path is free of [build_info].  The
    analysis loop has no such test: when it ends, it has started one
    analyzer process for every file of the list, in order, and the
    report holds the standard error of every flagged run. *)
Theorem build_info_guards_ast_tasks_only
    (exec : World → Invocation → ProcOut) (cwd : str)
    (commands : gmap str CompileCommand) (args : Args) (l : list str) :
  (∀ f, f ∈ ast_jobs l ↔ f ∈ l ∧ str_in (py "build_info") f = false)
  ∧ phase_one_tasks exec cwd commands args l
    = generate_external_def_map exec cwd args (build_ast_path_map l)
      :: map (compile_file exec cwd commands args (build_ast_path_map l))
           (ast_jobs l)
  ∧ (∀ w fixNeeded w',
       analysis exec commands args l [] w = (Ok fixNeeded, w') →
       ∃ runs,
         procs w' = procs w ++ runs
         ∧ Forall2 (λ f run, ∃ cmd, commands !! f = Some cmd
                                    ∧ run.1 = analyze_invocation args cmd)
             l runs
         ∧ fixNeeded = report_of runs).
Proof.
  split; [|split; [reflexivity|]].
  - intros f. unfold ast_jobs. rewrite list_elem_of_filter.
    rewrite <- (str_find_in f (py "build_info")), Z.leb_gt.
    split; [intros [? ?] | intros [? ?]]; split; (done || lia).
  - intros w fixNeeded w' H.
    apply analysis_runs in H as (runs & Hp & _ & _ & Hall & ->).
    by exists runs.
Qed.

Lemma build_info_guards_ast_tasks_only_witness :
  ∃ runs,
    (procs (analysis Sample.warner Sample.commands
              (Sample.args [py "a.cpp"; py "build_info.cpp"])
              [py "a.cpp"; py "build_info.cpp"] [] Sample.nothing).2)
    = procs Sample.nothing ++ runs
    ∧ length runs = 2%nat.
Proof.
  destruct (proj2 (proj2 (build_info_guards_ast_tasks_only Sample.warner
                            (py "/proj") Sample.commands
                            (Sample.args [py "a.cpp"; py "build_info.cpp"])
                            [py "a.cpp"; py "build_info.cpp"]))
              Sample.nothing _ _ eq_refl)
    as (runs & Hp & Hall & _).
  exists runs. split; [exact Hp|].
  symmetry. exact (Forall2_length _ _ _ Hall).
Defined.

(** C2 as stated fails: [build_info.cpp] is in the file list, the
    analyzer is run on it (it is the last process of the run), and its
    standard error ends up in the results file. *)
Lemma build_info_file_is_analysed :
  str_in (py "build_info") (py "build_info.cpp") = true
  ∧ ∃ w',
      main Sample.warner (py "/proj") Sample.commands
        (Sample.args [py "a.cpp"; py "build_info.cpp"]) Sample.nothing
      = (Ok (-1), w')
      ∧ last (procs w')
        = Some (analyze_invocation
                  (Sample.args [py "a.cpp"; py "build_info.cpp"])
                  (Sample.cc "build_info.cpp"),
                {| proc_stdout := [];
                   proc_stderr := py "build_info.cpp:3:7: warning: unused variable"
                                    ++ [LF] |})
      ∧ fs w' !! results_file
        = Some (py "build_info.cpp:3:7: warning: unused variable" ++ [LF]).
Proof.
  split; [reflexivity|].
  eexists. split; [vm_compute; reflexivity|]. by vm_compute.
Qed.

(** C4.  A standard error is flagged exactly when [error], [warning] or
    [critical] is a substring of it.  When the analysis loop ends, the
    report is the standard error of the flagged runs, whole and in
    order, and nothing of the other runs; it is empty exactly when no
    run was flagged.  With an empty report [main] returns 0 and leaves
    the world as it is, so no results file is written; otherwise the
    report is appended to the results file and [main] returns -1. *)
Theorem failure_classification
    (exec : World → Invocation → ProcOut)
    (commands : gmap str CompileCommand) (args : Args)
    (l : list str) (w w1 : World) (fixNeeded : str) :
  analysis exec commands args l [] w = (Ok fixNeeded, w1) →
  (∀ stderr,
     flagged stderr = true ↔
     (∃ a b, stderr = a ++ py "error" ++ b)
     ∨ (∃ a b, stderr = a ++ py "warning" ++ b)
     ∨ (∃ a b, stderr = a ++ py "critical" ++ b))
  ∧ ∃ runs,
      procs w1 = procs w ++ runs
      ∧ length runs = length l
      ∧ fs w1 = fs w
      ∧ fixNeeded
        = concat (map (λ run, proc_stderr run.2)
                    (filter (λ run, flagged (proc_stderr run.2) = true) runs))
      ∧ (fixNeeded = [] ↔
         Forall (λ run, flagged (proc_stderr run.2) = false) runs)
      ∧ (fixNeeded = [] → report fixNeeded w1 = (Ok 0, w1))
      ∧ (fixNeeded ≠ [] →
         report fixNeeded w1
         = (Ok (-1),
            set_file results_file
              (default [] (fs w1 !! results_file) ++ fixNeeded) w1)).
Proof.
  intros H. split; [apply flagged_substring|].
  apply analysis_runs in H as (runs & Hp & Hfs & _ & Hall & ->).
  exists runs. split; [done|]. split; [symmetry; by eapply Forall2_length|].
  split; [done|]. split; [done|]. split; [apply report_of_nil_iff|].
  unfold report. split; intros Hbuf.
  - by rewrite bool_decide_eq_true_2.
  - by rewrite bool_decide_eq_false_2.
Qed.

Lemma failure_classification_witness :
  ∃ fixNeeded w1,
    analysis Sample.warner Sample.commands
      (Sample.args [py "a.cpp"; py "b.cpp"]) [py "a.cpp"; py "b.cpp"] []
      Sample.nothing
    = (Ok fixNeeded, w1)
    ∧ ∃ runs, procs w1 = procs Sample.nothing ++ runs
              ∧ length runs = 2%nat.
Proof.
  eexists _, _. split; [reflexivity|].
  destruct (proj2 (failure_classification Sample.warner Sample.commands
                     (Sample.args [py "a.cpp"; py "b.cpp"])
                     [py "a.cpp"; py "b.cpp"] Sample.nothing _ _ eq_refl))
    as (runs & Hp & Hlen & _).
  exists runs. split; [exact Hp | exact Hlen].
Defined.

(** ** The exit status (C1) *)

(** C1.  Whatever [main] does, the process ends with status 1: when
    [main] returns, it returns 0 or -1 and the script goes on to
    [sys.exit(1)]; when an exception leaves [main], the interpreter
    ends with status 1 as well. *)
Theorem exit_status_is_one
    (exec : World → Invocation → ProcOut) (cwd : str)
    (commands : gmap str CompileCommand) (args : Args) (w : World) :
  exit_status (script exec cwd commands args w).1 = 1
  ∧ ∀ r w',
      main exec cwd commands args w = (Ok r, w') →
      (r = 0 ∨ r = -1)
      ∧ script exec cwd commands args w = (SystemExit 1, w').
Proof.
  unfold script. split.
  - by destruct (main exec cwd commands args w) as [[r|e] w'].
  - intros r w' H. split; [by eapply main_returns|]. by rewrite H.
Qed.

Lemma exit_status_is_one_witness :
  (∃ w', main Sample.quiet (py "/proj") Sample.commands
           (Sample.args [py "a.cpp"; py "b.cpp"]) Sample.nothing
         = (Ok 0, w')
         ∧ script Sample.quiet (py "/proj") Sample.commands
             (Sample.args [py "a.cpp"; py "b.cpp"]) Sample.nothing
           = (SystemExit 1, w'))
  ∧ (∃ w', main Sample.warner (py "/proj") Sample.commands
             (Sample.args [py "a.cpp"; py "b.cpp"]) Sample.nothing
           = (Ok (-1), w')
           ∧ script Sample.warner (py "/proj") Sample.commands
               (Sample.args [py "a.cpp"; py "b.cpp"]) Sample.nothing
             = (SystemExit 1, w')).
Proof.
  split; eexists; (split; [vm_compute; reflexivity|]).
  - refine (proj2 (proj2 (exit_status_is_one Sample.quiet (py "/proj")
                            Sample.commands
                            (Sample.args [py "a.cpp"; py "b.cpp"])
                            Sample.nothing) 0 _ _)).
    vm_compute; reflexivity.
  - refine (proj2 (proj2 (exit_status_is_one Sample.warner (py "/proj")
                            Sample.commands
                            (Sample.args [py "a.cpp"; py "b.cpp"])
                            Sample.nothing) (-1) _ _)).
    vm_compute; reflexivity.
Defined.

(** ** The barrier between the two phases (C9) *)

(** C9, as the code has it.  Phase one always yields one outcome per
    submitted task: the build of the external definition map and an AST
    task per file without [build_info].  If one of them raised, [main]
    raises the first such exception in the order of submission, in the
    world that phase one left, so no analyzer was started; otherwise
    [main] goes on with the analysis.  In every state that the pool and
    the main thread can reach, under any order in which the workers
    finish: before each start of the analyzer every task was done and
    had not raised; if a task raised, no analyzer is ever started and
    [main] never reaches the analysis; and an exception that [result()]
    lets out of [main] is the first failure, never a later one. *)
Theorem phase_one_barrier
    (exec : World → Invocation → ProcOut) (cwd : str)
    (commands : gmap str CompileCommand) (args : Args) (w : World) :
  let l := selected_files args in
  ∃ outcomes w1,
    submit_all (phase_one_tasks exec cwd commands args l) w = (Ok outcomes, w1)
    ∧ length outcomes = S (length (ast_jobs l))
    ∧ main exec cwd commands args w
      = match Pool.first_failure outcomes with
        | Some e => (Raise e, w1)
        | None => (analysis exec commands args l [] ≫= report) w1
        end
    ∧ ∀ st, Pool.reachable outcomes (length l) st →
        (∀ t1 k t2,
           Pool.trace st = t1 ++ Pool.AnalyzerStarted k :: t2 →
           ∀ j, (j < length outcomes)%nat →
             Pool.TaskDone j ∈ t1 ∧ outcomes !! j = Some (Ok ()))
        ∧ (∀ e, Pool.first_failure outcomes = Some e →
             (∀ k, (Pool.AnalyzerStarted k ∉ Pool.trace st)
                   ∧ Pool.at_pc st ≠ Pool.Analysing k)
             ∧ Pool.at_pc st ≠ Pool.Returned)
        ∧ (∀ e, Pool.at_pc st = Pool.Propagated e →
             Pool.first_failure outcomes = Some e).
Proof.
  intros l.
  destruct (submit_all_total (phase_one_tasks exec cwd commands args l) w)
    as (outcomes & w1 & Hsub & Hlen).
  exists outcomes, w1. split; [done|]. split.
  { rewrite Hlen. unfold phase_one_tasks. cbn. by rewrite length_map. }
  split.
  { unfold main. fold l. rewrite bind_unfold, Hsub, bind_unfold.
    rewrite for_each_future_result.
    by destruct (Pool.first_failure outcomes). }
  intros st (Hdone & Hpc & Hbar)%reachable_inv.
  assert (Hok : Pool.all_ok outcomes st → Pool.first_failure outcomes = None).
  { intros Hall. apply first_failure_none. intros j Hj. by apply Hall. }
  split; [exact Hbar|]. split.
  - intros e He. unfold Pool.pc_inv in Hpc. split; [intros k; split|].
    + intros [t1 [t2 Hsplit]]%list_elem_of_split.
      rewrite first_failure_none in He; [done|].
      intros j Hj. by apply (Hbar _ _ _ Hsplit).
    + intros Hat. rewrite Hat in Hpc. by rewrite Hok in He.
    + intros Hat. rewrite Hat in Hpc. by rewrite Hok in He.
  - intros e Hat. unfold Pool.pc_inv in Hpc. rewrite Hat in Hpc.
    by destruct Hpc.
Qed.

Lemma phase_one_barrier_witness :
  ∃ st,
    Pool.run_schedule [Ok (); Ok (); Ok ()] 2
      (replicate 4 Pool.MainStep
         ++ [Pool.Start; Pool.Start; Pool.Start;
             Pool.Finish 2; Pool.Finish 0; Pool.Finish 1]
         ++ replicate 5 Pool.MainStep)
      Pool.init
    = Some st
    ∧ Pool.trace st
      = [Pool.TaskStarted 0; Pool.TaskStarted 1; Pool.TaskStarted 2;
         Pool.TaskDone 2; Pool.TaskDone 0; Pool.TaskDone 1;
         Pool.AnalyzerStarted 0]
    ∧ ∀ j, (j < 3)%nat →
        Pool.TaskDone j
          ∈ [Pool.TaskStarted 0; Pool.TaskStarted 1; Pool.TaskStarted 2;
             Pool.TaskDone 2; Pool.TaskDone 0; Pool.TaskDone 1].
Proof.
  destruct (phase_one_barrier Sample.quiet (py "/proj") Sample.commands
              (Sample.args [py "a.cpp"; py "b.cpp"]) Sample.nothing)
    as (outcomes & w1 & Hsub & _ & _ & Hreach).
  vm_compute in Hsub. injection Hsub as Houtcomes _. subst outcomes.
  destruct (Pool.run_schedule [Ok (); Ok (); Ok ()] 2
              (replicate 4 Pool.MainStep
                 ++ [Pool.Start; Pool.Start; Pool.Start;
                     Pool.Finish 2; Pool.Finish 0; Pool.Finish 1]
                 ++ replicate 5 Pool.MainStep) Pool.init)
    as [st|] eqn:Hrun; [|by vm_compute in Hrun].
  exists st. split; [reflexivity|].
  assert (Htrace : Pool.trace st
            = [Pool.TaskStarted 0; Pool.TaskStarted 1; Pool.TaskStarted 2;
               Pool.TaskDone 2; Pool.TaskDone 0; Pool.TaskDone 1;
               Pool.AnalyzerStarted 0]).
  { vm_compute in Hrun. by injection Hrun as <-. }
  split; [exact Htrace|].
  intros j Hj.
  exact (proj1 (proj1 (Hreach st (ex_intro _ _ Hrun))
                  [Pool.TaskStarted 0; Pool.TaskStarted 1; Pool.TaskStarted 2;
                   Pool.TaskDone 2; Pool.TaskDone 0; Pool.TaskDone 1]
                  0%nat [] Htrace j Hj)).
Defined.

(** C9 as stated fails where two tasks raise: neither [x.cpp] nor
    [y.cpp] is in the compilation database, both AST tasks end with a
    [KeyError], and [main] raises the one of [x.cpp]; the failure of
    the task of [y.cpp] never reaches the caller. *)
Lemma second_failure_is_lost :
  ∃ w1,
    submit_all
      (phase_one_tasks Sample.quiet (py "/proj") Sample.commands
         (Sample.args [py "x.cpp"; py "y.cpp"]) [py "x.cpp"; py "y.cpp"])
      Sample.nothing
    = (Ok [Ok (); Raise (KeyError (py "x.cpp")); Raise (KeyError (py "y.cpp"))],
       w1)
    ∧ main Sample.quiet (py "/proj") Sample.commands
        (Sample.args [py "x.cpp"; py "y.cpp"]) Sample.nothing
      = (Raise (KeyError (py "x.cpp")), w1)
    ∧ KeyError (py "x.cpp") ≠ KeyError (py "y.cpp").
Proof.
  eexists. split; [vm_compute; reflexivity|].
  split; [vm_compute; reflexivity | by vm_compute].
Qed.


(** * Further properties of the driver *)

(** Settles a decidable statement about given values by evaluation. *)
Ltac by_evaluation := refine (bool_decide_unpack _ _); vm_compute; exact I.

(** ** The compilation database *)

Lemma filter_none {A} (P : A → Prop) `{!∀ x, Decision (P x)} (l : list A) :
  Forall (λ x, ¬ P x) l → filter P l = [].
Proof.
  induction 1 as [|x l Hx _ IH]; [done|]. by rewrite filter_cons_False.
Qed.

Section compile_commands_facts.
Variable shlex_split : str → result (list str).

(** The command that an entry stands for, once its command line is
    split into [words]. *)
Lemma load_commands_lookup (js : list Json.entry)
    (cmds cmds' : gmap str CompileCommand) (p : str) :
  load_commands shlex_split cmds js = Ok cmds' →
  cmds' !! p =
    match last (filter (λ e, Json.file e = p) js) with
    | None => cmds !! p
    | Some e =>
        match shlex_split (Json.command e) with
        | Ok words => Some {| cmdline := words;
                              directory := Json.directory e;
                              path := p |}
        | Raise _ => None
        end
    end.
Proof.
  revert cmds; induction js as [|e js IH]; intros cmds; cbn [load_commands].
  - by intros [= ->].
  - destruct (shlex_split (Json.command e)) as [words|err] eqn:Hsplit; [|done].
    intros H. rewrite (IH _ H), filter_cons. case_decide as Hp.
    + rewrite last_cons.
      destruct (last (filter (λ e0, Json.file e0 = p) js)); [done|].
      rewrite Hsplit, <- Hp. by rewrite lookup_insert_eq.
    + destruct (last (filter (λ e0, Json.file e0 = p) js)); [done|].
      by rewrite lookup_insert_ne.
Qed.

Lemma load_commands_splits (js : list Json.entry)
    (cmds cmds' : gmap str CompileCommand) (e : Json.entry) :
  load_commands shlex_split cmds js = Ok cmds' →
  e ∈ js → ∃ words, shlex_split (Json.command e) = Ok words.
Proof.
  revert cmds; induction js as [|e0 js IH]; intros cmds H He.
  - by apply elem_of_nil in He.
  - cbn [load_commands] in H.
    destruct (shlex_split (Json.command e0)) as [words|err] eqn:Hsplit;
      [|done].
    apply elem_of_cons in He as [-> | He]; [by exists words | by eapply IH].
Qed.

(** X1.  When the database loads, [find] on a path returns the command
    of the last entry for that file, whose [path] is the path asked for,
    and raises [KeyError] for a path that no entry names. *)
Theorem find_after_load (js : list Json.entry)
    (cmds : gmap str CompileCommand) :
  CompileCommands_init shlex_split js = Ok cmds →
  (∀ p cmd w w', find cmds p w = (Ok cmd, w') → path cmd = p ∧ w' = w)
  ∧ (∀ before e after w,
       js = before ++ e :: after →
       Forall (λ e', Json.file e' ≠ Json.file e) after →
       ∃ words, shlex_split (Json.command e) = Ok words
                ∧ find cmds (Json.file e) w
                  = (Ok {| cmdline := words; directory := Json.directory e;
                           path := Json.file e |}, w))
  ∧ (∀ p w, Forall (λ e, Json.file e ≠ p) js →
            find cmds p w = (Raise (KeyError p), w)).
Proof.
  intros Hload. unfold CompileCommands_init in Hload.
  pose proof (λ p, load_commands_lookup js ∅ cmds p Hload) as Hlook.
  split; [|split].
  - intros p cmd w w' [Hp ->]%find_Ok. split; [|done].
    rewrite Hlook in Hp.
    destruct (last (filter (λ e, Json.file e = p) js)) as [e|]; [|done].
    destruct (shlex_split (Json.command e)); [|done]. by injection Hp as <-.
  - intros before e after w -> Hafter.
    specialize (Hlook (Json.file e)).
    rewrite filter_app, filter_cons_True in Hlook by done.
    replace (filter (λ e0, Json.file e0 = Json.file e) after) with
      (@nil Json.entry) in Hlook.
    + rewrite last_snoc in Hlook. unfold find. rewrite Hlook.
      destruct (load_commands_splits _ _ _ e Hload) as [words Hwords].
      { apply elem_of_app. right. by left. }
      exists words. by rewrite Hwords.
    + symmetry. by apply filter_none.
  - intros p w Hnone. specialize (Hlook p).
    rewrite filter_none in Hlook by done. cbn in Hlook.
    unfold find. by rewrite Hlook.
Qed.

End compile_commands_facts.


Lemma find_after_load_witness :
  ∃ cmds,
    CompileCommands_init (λ s, Ok (split_spaces [] s))
      [{| Json.command := py "g++ -c a.cpp"; Json.directory := py "/old";
          Json.file := py "a.cpp" |};
       {| Json.command := py "clang++  -O2 -c a.cpp";
          Json.directory := py "/proj"; Json.file := py "a.cpp" |}]
    = Ok cmds
    ∧ find cmds (py "a.cpp") Sample.nothing
      = (Ok {| cmdline := [py "clang++"; py "-O2"; py "-c"; py "a.cpp"];
               directory := py "/proj"; path := py "a.cpp" |},
         Sample.nothing).
Proof.
  eexists. split; [reflexivity|].
  destruct (proj1 (proj2 (find_after_load (λ s, Ok (split_spaces [] s))
                            [{| Json.command := py "g++ -c a.cpp";
                                Json.directory := py "/old";
                                Json.file := py "a.cpp" |};
                             {| Json.command := py "clang++  -O2 -c a.cpp";
                                Json.directory := py "/proj";
                                Json.file := py "a.cpp" |}]
                            _ eq_refl))
              [{| Json.command := py "g++ -c a.cpp"; Json.directory := py "/old";
                  Json.file := py "a.cpp" |}]
              {| Json.command := py "clang++  -O2 -c a.cpp";
                 Json.directory := py "/proj"; Json.file := py "a.cpp" |}
              [] Sample.nothing eq_refl (Forall_nil_2 _))
    as (words & Hwords & Hfind).
  injection Hwords as <-. exact Hfind.
Defined.

(** ** The AST path map *)

Lemma dict_get_set (d : dict) (k v k' : str) :
  dict_get (dict_set d k v) k' =
    if decide (k' = k) then Some v else dict_get d k'.
Proof.
  induction d as [|[k0 v0] d IH]; cbn [dict_set dict_get].
  - done.
  - destruct (decide (k = k0)) as [->|Hk]; cbn [dict_get].
    + by destruct (decide (k' = k0)).
    + rewrite IH. destruct (decide (k' = k0)) as [->|]; [|done].
      by rewrite decide_False.
Qed.

Lemma dict_keys_set (d : dict) (k v : str) :
  dict_keys (dict_set d k v) =
    if decide (k ∈ dict_keys d) then dict_keys d else dict_keys d ++ [k].
Proof.
  unfold dict_keys. induction d as [|[k0 v0] d IH]; cbn [dict_set fmap list_fmap].
  - rewrite decide_False; [done|]. apply not_elem_of_nil.
  - destruct (decide (k = k0)) as [->|Hk]; cbn.
    + rewrite decide_True; [done|]. by left.
    + rewrite IH. destruct (decide (k ∈ d.*1)) as [Hin|Hin].
      * rewrite decide_True; [done|]. by right.
      * rewrite decide_False; [done|].
        by intros [?|?]%elem_of_cons.
Qed.

Lemma dict_get_keys (d : dict) (k : str) :
  is_Some (dict_get d k) ↔ k ∈ dict_keys d.
Proof.
  unfold dict_keys. induction d as [|[k0 v0] d IH]; cbn.
  - split; [by intros [? ?] | by intros ?%elem_of_nil].
  - destruct (decide (k = k0)) as [->|Hk].
    + split; [intros _; by left | by eexists].
    + rewrite IH. split; [by right | by intros [?|?]%elem_of_cons].
Qed.

(** The state of [ast_path_map] after the loop has seen [l], starting
    from [d]. *)
Lemma ast_path_map_fold (l : list str) (d : dict) :
  let d' := foldl (λ d cc_path, dict_set d cc_path (cc_path ++ py ".ast")) d l in
  (NoDup (dict_keys d) → NoDup (dict_keys d'))
  ∧ (∀ f, f ∈ dict_keys d' ↔ f ∈ dict_keys d ∨ f ∈ l)
  ∧ (∀ f, dict_get d' f =
          if decide (f ∈ l) then Some (f ++ py ".ast") else dict_get d f)
  ∧ dict_keys d `prefix_of` dict_keys d'.
Proof.
  revert d; induction l as [|x l IH]; intros d; cbn [foldl].
  - split; [done|]. split; [|split; [|done]].
    + intros f. split; [by left | intros [?|?%elem_of_nil]; done].
    + intros f. rewrite decide_False; [done|]. apply not_elem_of_nil.
  - destruct (IH (dict_set d x (x ++ py ".ast"))) as (Hnd & Hin & Hget & Hpre).
    rewrite dict_keys_set in Hnd, Hin, Hpre.
    split; [|split; [|split]].
    + intros Hd. apply Hnd. case_decide; [done|].
      apply NoDup_app. split; [done|]. split; [|apply NoDup_singleton].
      by intros y Hy ->%list_elem_of_singleton.
    + intros f. rewrite Hin, elem_of_cons. case_decide as Hx.
      * split; [tauto|]. intros [?|[->|?]]; tauto.
      * rewrite elem_of_app, list_elem_of_singleton. tauto.
    + intros f. rewrite Hget, dict_get_set.
      destruct (decide (f ∈ l)) as [Hl|Hl].
      * rewrite decide_True; [done|]. by right.
      * destruct (decide (f = x)) as [->|Hfx].
        -- rewrite decide_True; [done|]. by left.
        -- rewrite decide_False; [done|]. by intros [?|?]%elem_of_cons.
    + etrans; [|exact Hpre]. case_decide; [done|]. by apply prefix_app_r.
Qed.

(** X2.  [ast_path_map] has every file of the list as a key, once, and
    no other key; the value of a key is the key followed by [.ast]; and
    a key is never moved once it is in the map, so the keys stand in the
    order in which the files are first listed. *)
Theorem ast_path_map_entries (l : list str) :
  NoDup (dict_keys (build_ast_path_map l))
  ∧ (∀ f, f ∈ dict_keys (build_ast_path_map l) ↔ f ∈ l)
  ∧ (∀ f, dict_get (build_ast_path_map l) f =
          if decide (f ∈ l) then Some (f ++ py ".ast") else None)
  ∧ (∀ l', dict_keys (build_ast_path_map l)
             `prefix_of` dict_keys (build_ast_path_map (l ++ l'))).
Proof.
  unfold build_ast_path_map.
  destruct (ast_path_map_fold l []) as (Hnd & Hin & Hget & _).
  split; [apply Hnd, NoDup_nil_2|]. split; [|split].
  - intros f. rewrite Hin. split; [intros [?%elem_of_nil|?]; done | by right].
  - exact Hget.
  - intros l'. rewrite foldl_app. apply ast_path_map_fold.
Qed.

(** ** The order of strings *)

Lemma nat_of_ascii_inj (x y : ascii) : nat_of_ascii x = nat_of_ascii y → x = y.
Proof.
  intros H. rewrite <- (ascii_nat_embedding x), <- (ascii_nat_embedding y).
  by rewrite H.
Qed.

Lemma ascii_eqb_nat (x y : ascii) :
  Ascii.eqb x y = (nat_of_ascii x =? nat_of_ascii y)%nat.
Proof.
  destruct (Ascii.eqb x y) eqn:E.
  - apply Ascii.eqb_eq in E as ->. by rewrite Nat.eqb_refl.
  - symmetry. apply Nat.eqb_neq. intros H%nat_of_ascii_inj.
    apply Ascii.eqb_neq in E. done.
Qed.

Lemma str_leb_cons (x y : ascii) (a b : str) :
  str_leb (x :: a) (y :: b) = true ↔
  (nat_of_ascii x < nat_of_ascii y)%nat
  ∨ (nat_of_ascii x = nat_of_ascii y ∧ str_leb a b = true).
Proof.
  cbn [str_leb]. rewrite ascii_eqb_nat.
  destruct (Nat.ltb_spec (nat_of_ascii x) (nat_of_ascii y)) as [Hlt|Hge].
  - split; [by left | done].
  - destruct (Nat.eqb_spec (nat_of_ascii x) (nat_of_ascii y)) as [Heq|Hne].
    + split; [by right | intros [?|[_ ?]]; [lia | done]].
    + split; [done | intros [?|[? _]]; lia].
Qed.

Global Instance str_le_total : Total (λ a b : str, Is_true (str_leb a b)).
Proof.
  intros a. induction a as [|x a IH]; intros [|y b];
    [by left | by left | by right |].
  rewrite !Is_true_true, !str_leb_cons.
  destruct (IH b) as [H|H]; apply Is_true_true in H;
    destruct (Nat.lt_total (nat_of_ascii x) (nat_of_ascii y)) as [?|[?|?]];
    auto.
Qed.

Global Instance str_le_trans : Transitive (λ a b : str, Is_true (str_leb a b)).
Proof.
  intros a. induction a as [|x a IH]; intros [|y b] [|z c]; try done.
  rewrite !Is_true_true, !str_leb_cons.
  intros [?|[? Hab]] [?|[? Hbc]]; try (left; lia).
  right. split; [lia|]. apply Is_true_true.
  eapply IH; apply Is_true_true; eassumption.
Qed.

(** ** The build of the external definition map *)

Section def_map_build_facts.
Variable exec : World → Invocation → ProcOut.
Variable cwd : str.
Variable args : Args.
Variable paths : dict.

(** The loop over the lines starts no process, writes to no file but
    the final map, and prints only when it fails. *)
Lemma def_map_loop_frame (lines : list str) (w w' : World) (r : result unit) :
  for_each lines (def_map_line_step cwd paths) w = (r, w') →
  procs w' = procs w
  ∧ (∀ name, name ≠ final_map → fs w' !! name = fs w !! name)
  ∧ (r = Ok () → printed w' = printed w).
Proof.
  revert w; induction lines as [|line lines IH]; intros w.
  - by intros [= <- <-].
  - cbn [for_each]. rewrite bind_unfold, def_map_line_step_cases.
    destruct (Re.re_match _ _) as [m|]; [|by intros [= <- <-]].
    destruct (str_in _ _); [apply IH|].
    destruct (dict_get _ _) as [ast|]; [|by intros [= <- <-]].
    intros (Hp & Hfs & Hpr)%IH. split; [done|]. split; [|done].
    intros name Hname. rewrite Hfs by done. cbn.
    by rewrite lookup_insert_ne.
Qed.

(** [generate_external_def_map] up to its loop. *)
Lemma generate_external_def_map_unfold (w : World) :
  let inv := {| argv := mapping_argv args paths; run_cwd := None |} in
  let out := exec (set_file org_map [] w) inv in
  generate_external_def_map exec cwd args paths w =
    for_each (readlines (proc_stdout out)) (def_map_line_step cwd paths)
      {| fs := <[final_map := []]>
                 (<[org_map := proc_stdout out]> (<[org_map := []]> (fs w)));
         printed := printed w;
         procs := procs w ++ [(inv, out)] |}.
Proof.
  intros inv out. unfold generate_external_def_map.
  rewrite bind_unfold. unfold open_w at 1. cbv beta iota.
  rewrite bind_unfold. unfold call at 1. cbv beta iota zeta.
  rewrite bind_unfold. unfold write at 1. cbv beta iota.
  rewrite bind_unfold. unfold read at 1, set_file. cbn [fs printed procs].
  rewrite !lookup_insert_eq. cbn [default app].
  rewrite bind_unfold. unfold open_w, set_file. cbn [fs printed procs].
  done.
Qed.

End def_map_build_facts.

Lemma str_find_negative (s sub : str) :
  str_find s sub < 0 ↔ str_in sub s = false.
Proof.
  unfold str_find, str_in. destruct (index_of sub s); split; (done || lia).
Qed.

(** X3.  Whatever the outcome of the build, the mapping tool is started
    exactly once, in the directory of the driver, with [-p .] and the
    keys of the AST path map that do not hold [test.cc], each as often
    as it is a key and in ascending order; its standard output is what
    the intermediate map holds afterwards.  No other process is started. *)
Theorem mapping_tool_runs_once
    (exec : World → Invocation → ProcOut) (cwd : str) (args : Args)
    (paths : dict) (w : World) :
  ∃ out names,
    procs (generate_external_def_map exec cwd args paths w).2
    = procs w
      ++ [({| argv := [llvm_binary_path args (py "clang-extdef-mapping-12");
                       py "-p"; py "."] ++ names;
              run_cwd := None |}, out)]
    ∧ fs (generate_external_def_map exec cwd args paths w).2 !! org_map
      = Some (proc_stdout out)
    ∧ StronglySorted (λ a b, Is_true (str_leb a b)) names
    ∧ names ≡ₚ filter (λ p, str_in (py "test.cc") p = false) (dict_keys paths).
Proof.
  rewrite generate_external_def_map_unfold.
  set (inv := {| argv := mapping_argv args paths; run_cwd := None |}).
  set (out := exec (set_file org_map [] w) inv).
  destruct (for_each _ _ _) as [r w'] eqn:Hloop.
  apply def_map_loop_frame in Hloop as (Hp & Hfs & _). cbn [snd].
  exists out, (sorted (filter (λ p, str_find p (py "test.cc") < 0)
                         (dict_keys paths))).
  split; [by rewrite Hp|]. split.
  { rewrite Hfs by done. cbn [fs].
    rewrite lookup_insert_ne by done. by rewrite lookup_insert_eq. }
  split; [apply StronglySorted_merge_sort; apply _|].
  unfold sorted. rewrite merge_sort_Permutation.
  erewrite list_filter_iff; [done|]. intros p. apply str_find_negative.
Qed.

(** The loop ends well only over lines that all match and are either
    lines of [main] or lines of a known file. *)
Lemma def_map_loop_Ok (cwd : str) (paths : dict) (lines : list str)
    (w w' : World) :
  for_each lines (def_map_line_step cwd paths) w = (Ok (), w') →
  Forall (λ line, ∃ m,
            Re.re_match Re.def_map_line (strip_cwd cwd line) = Some m
            ∧ (str_in main_marker (Re.group m 1) = true
               ∨ is_Some (dict_get paths (Re.group m 2)))) lines.
Proof.
  revert w; induction lines as [|line lines IH]; intros w; [by constructor|].
  cbn [for_each]. rewrite bind_unfold, def_map_line_step_cases.
  destruct (Re.re_match _ _) as [m|] eqn:Hm; [|done].
  destruct (str_in _ _) eqn:Hmain.
  - intros H%IH. constructor; [|done]. exists m. by split; [|left].
  - destruct (dict_get _ _) as [ast|] eqn:Hast; [|done].
    intros H%IH. constructor; [|done]. exists m. split; [done|]. right. by exists ast.
Qed.

Lemma def_map_loop_keeps_final (cwd : str) (paths : dict) (lines : list str)
    (w w' : World) (r : result unit) :
  for_each lines (def_map_line_step cwd paths) w = (r, w') →
  is_Some (fs w !! final_map) → is_Some (fs w' !! final_map).
Proof.
  revert w; induction lines as [|line lines IH]; intros w.
  - by intros [= <- <-].
  - cbn [for_each]. rewrite bind_unfold, def_map_line_step_cases.
    destruct (Re.re_match _ _) as [m|]; [|by intros [= <- <-]].
    destruct (str_in _ _); [apply IH|].
    destruct (dict_get _ _) as [ast|]; [|by intros [= <- <-]].
    intros H%IH _; [done|]. cbn. rewrite lookup_insert_eq. by eexists.
Qed.

(** X4.  The build of the external definition map touches two files
    only, the intermediate and the final map, and prints nothing unless
    it fails.  It ends well exactly when every line of the intermediate
    map matches the pattern and either holds the main marker in its
    symbol id or names a file of the AST path map; the final map then
    holds the entries of the lines without the marker, in order, and
    nothing of what it held before. *)
Theorem def_map_build_files
    (exec : World → Invocation → ProcOut) (cwd : str) (args : Args)
    (paths : dict) (w w' : World) (r : result unit) :
  generate_external_def_map exec cwd args paths w = (r, w') →
  let lines := readlines (default [] (fs w' !! org_map)) in
  (∀ name, name ≠ org_map → name ≠ final_map → fs w' !! name = fs w !! name)
  ∧ (r = Ok () → printed w' = printed w)
  ∧ (r = Ok () ↔
     Forall (λ line, ∃ m,
               Re.re_match Re.def_map_line (strip_cwd cwd line) = Some m
               ∧ (str_in main_marker (Re.group m 1) = true
                  ∨ is_Some (dict_get paths (Re.group m 2)))) lines)
  ∧ (r = Ok () →
     fs w' !! final_map
     = Some (concat (omap (def_map_entry cwd paths) lines))).
Proof.
  rewrite generate_external_def_map_unfold.
  set (inv := {| argv := mapping_argv args paths; run_cwd := None |}).
  set (out := exec (set_file org_map [] w) inv).
  set (w1 := {| fs := <[final_map := []]>
                        (<[org_map := proc_stdout out]>
                           (<[org_map := []]> (fs w)));
                printed := printed w; procs := procs w ++ [(inv, out)] |}).
  intros Hloop lines.
  pose proof (def_map_loop_frame _ _ _ _ _ _ Hloop) as (_ & Hfs & Hpr).
  assert (Horg : fs w' !! org_map = Some (proc_stdout out)).
  { rewrite Hfs by done. cbn [w1 fs].
    rewrite lookup_insert_ne by done. by rewrite lookup_insert_eq. }
  assert (Hlines : lines = readlines (proc_stdout out)).
  { unfold lines. by rewrite Horg. }
  split; [|split; [exact Hpr|split]].
  - intros name Ho Hf. rewrite Hfs by done. cbn [w1 fs].
    by rewrite !lookup_insert_ne.
  - rewrite Hlines. split.
    + intros ->. by eapply def_map_loop_Ok.
    + intros Hall.
      destruct (def_map_loop_emits cwd paths _ w1 Hall) as (w2 & Hrun & _).
      rewrite Hrun in Hloop. by injection Hloop as <- _.
  - intros ->. rewrite Hlines.
    destruct (def_map_loop_emits cwd paths _ w1
                (def_map_loop_Ok _ _ _ _ _ Hloop))
      as (w2 & Hrun & Hcontent & _).
    rewrite Hrun in Hloop. injection Hloop as <-.
    unfold final_map_content in Hcontent. cbn [w1 fs] in Hcontent.
    rewrite lookup_insert_eq in Hcontent. cbn [default app] in Hcontent.
    destruct (def_map_loop_keeps_final _ _ _ _ _ _ Hrun) as [content Hfinal].
    { cbn [w1 fs]. rewrite lookup_insert_eq. by eexists. }
    rewrite Hfinal in Hcontent |- *. cbn in Hcontent. by rewrite Hcontent.
Qed.

Lemma def_map_build_files_witness :
  ∃ w',
    generate_external_def_map
      (Sample.mapper (py "9:c:@F@f# /proj/a.cpp" ++ [LF]
                        ++ py "c:@F@main#I# /proj/zz.cpp" ++ [LF]))
      (py "/proj") (Sample.args [py "a.cpp"])
      [(py "a.cpp", py "a.cpp.ast")]
      {| fs := {[ final_map := py "old entry" ]}; printed := []; procs := [] |}
    = (Ok (), w')
    ∧ fs w' !! final_map = Some (py "9:c:@F@f# a.cpp.ast" ++ [LF]).
Proof.
  destruct (generate_external_def_map _ _ _ _ _) as [r w'] eqn:Hrun.
  pose proof (def_map_build_files _ _ _ _ _ _ _ Hrun) as (_ & _ & _ & Hfinal).
  vm_compute in Hrun. injection Hrun as <- <-.
  eexists. split; [reflexivity|]. rewrite (Hfinal eq_refl). by vm_compute.
Defined.

(** X5.  A line that, once stripped, has no space in it, or does not end
    in [cpp] (a final newline apart), is an illegal line: the step
    raises with the stripped line in the message and changes nothing,
    and the loop stops there, with the entries of the lines before it
    in the final map and none of the lines after it. *)
Theorem illegal_line_aborts (cwd : str) (paths : dict) (line : str) (w : World) :
  (" "%char ∉ strip_cwd cwd line
   ∨ ¬ ∃ pre tail, strip_cwd cwd line = pre ++ py "cpp" ++ tail
                   ∧ (tail = [] ∨ tail = [LF])) →
  let failure : result unit * World :=
    (Raise (Exception (py "illegal line: " ++ strip_cwd cwd line)), w) in
  def_map_line_step cwd paths line w = failure
  ∧ ∀ before after w0,
      for_each before (def_map_line_step cwd paths) w0 = (Ok (), w) →
      for_each (before ++ line :: after) (def_map_line_step cwd paths) w0
      = failure.
Proof.
  intros Hshape failure.
  assert (Hstep : def_map_line_step cwd paths line w = failure).
  { rewrite def_map_line_step_cases.
    destruct (Re.re_match _ _) as [m|] eqn:Hm; [|done].
    exfalso.
    destruct (def_map_line_sound _ _ Hm)
      as (sym & stem & x & tail & Hs & _ & _ & _ & _ & _ & _ & Htail).
    destruct Hshape as [Hspace | Hcpp].
    - apply Hspace. rewrite Hs. apply elem_of_app. right. by left.
    - apply Hcpp. exists (sym ++ py " " ++ stem ++ [x]), tail.
      split; [|done]. rewrite Hs. by rewrite <- !app_assoc. }
  split; [done|]. intros before after w0 Hbefore.
  rewrite for_each_app, Hbefore. cbn [for_each].
  by rewrite bind_unfold, Hstep.
Qed.

Lemma illegal_line_aborts_witness :
  def_map_line_step (py "/proj") [(py "a.cpp", py "a.cpp.ast")]
    (py "9:c:@F@f# /proj/a.cc" ++ [LF]) Sample.nothing
  = (Raise (Exception (py "illegal line: 9:c:@F@f# a.cc" ++ [LF])),
     Sample.nothing).
Proof.
  refine (proj1 (illegal_line_aborts (py "/proj")
                   [(py "a.cpp", py "a.cpp.ast")]
                   (py "9:c:@F@f# /proj/a.cc" ++ [LF]) Sample.nothing _)).
  right. intros (pre & tail & Hs & Htail).
  apply (f_equal reverse) in Hs. rewrite !reverse_app in Hs.
  destruct Htail as [-> | ->]; vm_compute in Hs; discriminate.
Defined.

(** The exceptions of the loop are those of its lines. *)
Lemma def_map_loop_raises (cwd : str) (paths : dict) (lines : list str)
    (w w' : World) (e : exn) :
  for_each lines (def_map_line_step cwd paths) w = (Raise e, w') →
  ∃ line, line ∈ lines
    ∧ (e = Exception (py "illegal line: " ++ strip_cwd cwd line)
       ∨ ∃ m, Re.re_match Re.def_map_line (strip_cwd cwd line) = Some m
              ∧ dict_get paths (Re.group m 2) = None
              ∧ e = Exception (strip_cwd cwd line ++ py ": file '"
                                 ++ Re.group m 2 ++ py "' not found")
              ∧ printed w' = printed w ++ dict_keys paths).
Proof.
  revert w; induction lines as [|line lines IH]; intros w; [done|].
  cbn [for_each]. rewrite bind_unfold.
  destruct (def_map_line_step cwd paths line w) as [[[]|e0] w1] eqn:Hstep.
  - intros (line' & Hin & H)%IH. exists line'. split; [by right|].
    destruct H as [H | (m & Hm & Hget & He & Hpr)]; [by left|].
    right. exists m. repeat (split; [done|]).
    rewrite def_map_line_step_cases in Hstep.
    destruct (Re.re_match _ (strip_cwd cwd line)) as [m0|]; [|done].
    destruct (str_in _ _); [by injection Hstep as <-|].
    destruct (dict_get paths (Re.group m0 2)); [|done].
    injection Hstep as <-. by rewrite Hpr.
  - intros [= <- <-]. exists line. split; [by left|].
    rewrite def_map_line_step_cases in Hstep.
    destruct (Re.re_match _ _) as [m|] eqn:Hm;
      [|injection Hstep as <- _; by left].
    destruct (str_in _ _); [done|].
    destruct (dict_get _ _) eqn:Hget; [done|].
    injection Hstep as <- <-. right. by exists m.
Qed.

(** X6.  The build of the external definition map raises nothing but
    the two exceptions of its loop: for some line of the intermediate
    map, either the illegal-line exception, or, for a line that matches
    but names an unknown file, the not-found exception, raised after
    the keys of the AST path map were printed in their order.  It never
    fails for a missing key or a missing file. *)
Theorem def_map_build_exceptions
    (exec : World → Invocation → ProcOut) (cwd : str) (args : Args)
    (paths : dict) (w w' : World) (e : exn) :
  generate_external_def_map exec cwd args paths w = (Raise e, w') →
  ∃ line, line ∈ readlines (default [] (fs w' !! org_map))
    ∧ (e = Exception (py "illegal line: " ++ strip_cwd cwd line)
       ∨ ∃ m, Re.re_match Re.def_map_line (strip_cwd cwd line) = Some m
              ∧ dict_get paths (Re.group m 2) = None
              ∧ e = Exception (strip_cwd cwd line ++ py ": file '"
                                 ++ Re.group m 2 ++ py "' not found")
              ∧ printed w' = printed w ++ dict_keys paths).
Proof.
  rewrite generate_external_def_map_unfold. intros Hloop.
  pose proof (def_map_loop_frame _ _ _ _ _ _ Hloop) as (_ & Hfs & _).
  rewrite Hfs by done. cbn [fs].
  rewrite lookup_insert_ne by done. rewrite lookup_insert_eq. cbn [default].
  by apply def_map_loop_raises in Hloop.
Qed.

Lemma def_map_build_exceptions_witness :
  ∃ line,
    line ∈ [py "9:c:@F@f# /proj/a.cpp" ++ [LF]; py "9:c:@F@g# /proj/b.cpp" ++ [LF]]
    ∧ (Exception (py "9:c:@F@g# b.cpp" ++ [LF] ++ py ": file 'b.cpp' not found")
       = Exception (py "illegal line: " ++ strip_cwd (py "/proj") line)
       ∨ ∃ m, Re.re_match Re.def_map_line (strip_cwd (py "/proj") line) = Some m
              ∧ dict_get [(py "a.cpp", py "a.cpp.ast")] (Re.group m 2) = None
              ∧ Exception (py "9:c:@F@g# b.cpp" ++ [LF]
                             ++ py ": file 'b.cpp' not found")
                = Exception (strip_cwd (py "/proj") line ++ py ": file '"
                               ++ Re.group m 2 ++ py "' not found")
              ∧ [py "a.cpp"] = [] ++ dict_keys [(py "a.cpp", py "a.cpp.ast")]).
Proof.
  destruct (generate_external_def_map
              (Sample.mapper (py "9:c:@F@f# /proj/a.cpp" ++ [LF]
                                ++ py "9:c:@F@g# /proj/b.cpp" ++ [LF]))
              (py "/proj") (Sample.args [py "a.cpp"])
              [(py "a.cpp", py "a.cpp.ast")] Sample.nothing)
    as [r w'] eqn:Hrun.
  assert (Hr : r = Raise (Exception (py "9:c:@F@g# b.cpp" ++ [LF]
                                       ++ py ": file 'b.cpp' not found"))
               ∧ printed w' = [py "a.cpp"]
               ∧ fs w' !! org_map
                 = Some (py "9:c:@F@f# /proj/a.cpp" ++ [LF]
                           ++ py "9:c:@F@g# /proj/b.cpp" ++ [LF])).
  { pose proof Hrun as H. vm_compute in H. injection H as <- <-.
    by vm_compute. }
  destruct Hr as (-> & Hpr & Horg).
  pose proof (def_map_build_exceptions _ _ _ _ _ _ _ Hrun) as H.
  rewrite Horg, Hpr in H. exact H.
Defined.

(** ** Lines that the pattern accepts *)

Section line_pattern_complete.
Import Re.

(** The end of the pattern, from the dot on. *)
Let pat_dot : list item :=
  [One AnyChar; One (Lit "c"); One (Lit "p"); One (Lit "p");
   GroupClose 2; EndOfString].

(** The pattern behind group 1. *)
Let pat_space : list item :=
  [GroupClose 1; One (Lit " "); GroupOpen 2; One NonSpace; Star NonSpace]
  ++ pat_dot.

Lemma non_space_not_newline (c : ascii) : is_space c = false → c ≠ newline.
Proof. by intros H ->. Qed.

Lemma non_space_not_blank (c : ascii) : is_space c = false → c ≠ " "%char.
Proof. by intros H ->. Qed.

Lemma accepts_any (c : ascii) : c ≠ newline → accepts AnyChar c = true.
Proof. intros H. cbn. by apply negb_true_iff, Ascii.eqb_neq. Qed.

Lemma run_dot (q : nat) (x : ascii) (tail : str) (cs : captures) :
  x ≠ newline → tail = [] ∨ tail = [newline] →
  run pat_dot q (x :: py "cpp" ++ tail) cs = Some (close_group 2 (4 + q) cs).
Proof.
  intros Hx Htail. unfold pat_dot. cbn [run]. rewrite accepts_any by done.
  by destruct Htail as [-> | ->].
Qed.

Lemma run_dot_short (q : nat) (t : str) (cs : captures) :
  (length t < 4)%nat → run pat_dot q t cs = None.
Proof.
  intros Hlen. unfold pat_dot. cbn [run].
  destruct t as [|c1 [|c2 [|c3 [|c4 t]]]]; cbn in Hlen; try lia;
    repeat (destruct (accepts _ _); [|done]); done.
Qed.

Lemma star_non_space_dot (stem : str) (q : nat) (x : ascii) (tail : str)
    (cs : captures) :
  Forall (λ c, is_space c = false) stem →
  x ≠ newline → tail = [] ∨ tail = [newline] →
  star_loop NonSpace (λ q' t', run pat_dot q' t' cs) q
    (stem ++ x :: py "cpp" ++ tail)
  = Some (close_group 2 (4 + (q + length stem)) cs).
Proof.
  intros Hstem Hx Htail. revert q.
  induction Hstem as [|c stem Hc _ IH]; intros q.
  - cbn [app star_loop length]. rewrite Nat.add_0_r.
    assert (Hover : star_loop NonSpace (λ q' t', run pat_dot q' t' cs) (S q)
                      (py "cpp" ++ tail) = None).
    { destruct Htail as [-> | ->]; reflexivity. }
    rewrite Hover, run_dot by done. by destruct (accepts NonSpace x).
  - cbn [app star_loop length]. cbn [accepts]. rewrite Hc. cbn [negb].
    rewrite IH. do 2 f_equal. lia.
Qed.

Lemma star_any_file_part (stem : str) (q : nat) (x : ascii) (tail : str)
    (cs : captures) :
  Forall (λ c, is_space c = false) stem →
  x ≠ newline → tail = [] ∨ tail = [newline] →
  star_loop AnyChar (λ q' t', run pat_space q' t' cs) q
    (stem ++ x :: py "cpp" ++ tail)
  = None.
Proof.
  intros Hstem Hx Htail. revert q.
  induction Hstem as [|c stem Hc _ IH]; intros q.
  - cbn [app star_loop]. rewrite accepts_any by done.
    assert (Hover : star_loop AnyChar (λ q' t', run pat_space q' t' cs) (S q)
                      (py "cpp" ++ tail) = None).
    { destruct Htail as [-> | ->]; reflexivity. }
    rewrite Hover. unfold pat_space. cbn [app run accepts].
    destruct (Ascii.eqb " " x); [|done].
    destruct Htail as [-> | ->]; reflexivity.
  - cbn [app star_loop].
    rewrite accepts_any by (by apply non_space_not_newline).
    rewrite IH. unfold pat_space. cbn [app run accepts].
    apply non_space_not_blank in Hc.
    by rewrite (proj2 (Ascii.eqb_neq " " c)).
Qed.

Lemma star_any_line (sym stem : str) (q : nat) (x : ascii) (tail : str) :
  Forall (λ c, c ≠ newline) sym →
  stem ≠ [] → Forall (λ c, is_space c = false) stem →
  x ≠ newline → tail = [] ∨ tail = [newline] →
  star_loop AnyChar
    (λ q' t', run pat_space q' t' (open_group 1 0 no_captures)) q
    (sym ++ " "%char :: stem ++ x :: py "cpp" ++ tail)
  = Some {| opened := [(2, S (q + length sym)); (1, 0)]%nat;
            closed := [(2, (S (q + length sym),
                            S (q + length sym) + length stem + 4));
                       (1, (0, q + length sym))]%nat |}.
Proof.
  intros Hsym Hne Hstem Hx Htail. revert q.
  induction Hsym as [|c sym Hc _ IH]; intros q.
  - cbn [app star_loop length]. rewrite Nat.add_0_r.
    rewrite (accepts_any " ") by done.
    rewrite star_any_file_part by done.
    unfold pat_space. cbn [app run accepts]. rewrite Ascii.eqb_refl.
    destruct stem as [|c0 stem]; [done|].
    apply Forall_cons in Hstem as [Hc0 Hstem].
    cbn [app]. rewrite Hc0. cbn [negb].
    rewrite (star_non_space_dot stem) by done.
    cbn. do 5 f_equal. lia.
  - cbn [app star_loop]. rewrite accepts_any by done.
    rewrite IH.
    by replace (S q + length sym)%nat with (q + length (c :: sym))%nat
      by (cbn [length]; lia).
Qed.

(** A line of the shape of the pattern matches, and its groups are the
    symbol id and the file name. *)
Lemma def_map_line_complete (sym stem : str) (x : ascii) (tail : str) :
  Forall (λ c, c ≠ newline) sym →
  stem ≠ [] → Forall (λ c, is_space c = false) stem →
  x ≠ newline → tail = [] ∨ tail = [newline] →
  ∃ m, re_match def_map_line
         (sym ++ py " " ++ (stem ++ [x] ++ py "cpp") ++ tail) = Some m
       ∧ group m 1 = sym
       ∧ group m 2 = stem ++ [x] ++ py "cpp".
Proof.
  intros Hsym Hne Hstem Hx Htail.
  pose proof (star_any_line sym stem 0 x tail Hsym Hne Hstem Hx Htail) as H.
  set (s := sym ++ py " " ++ (stem ++ [x] ++ py "cpp") ++ tail).
  assert (Hs' : s = sym ++ " "%char :: stem ++ x :: py "cpp" ++ tail).
  { unfold s. cbn. by rewrite <- !app_assoc. }
  rewrite <- Hs' in H. cbn [Nat.add] in H.
  assert (Hrun : run def_map_line 0 s no_captures
                 = star_loop AnyChar
                     (λ q' t', run pat_space q' t' (open_group 1 0 no_captures))
                     0 s) by reflexivity.
  eexists. unfold re_match. rewrite Hrun, H.
  cbn [mbind option_bind closed]. split; [done|].
  unfold group. cbn [spans subject assoc Nat.eqb]. split.
  - rewrite drop_0, Nat.sub_0_r, Hs'. by rewrite take_app_length.
  - rewrite Hs' at 1.
    replace (S (length sym)) with (length (sym ++ [" "%char]))
      by (rewrite length_app; cbn; lia).
    replace (sym ++ " "%char :: stem ++ x :: py "cpp" ++ tail)
      with ((sym ++ [" "%char]) ++ stem ++ x :: py "cpp" ++ tail)
      by (by rewrite <- app_assoc).
    rewrite drop_app_length.
    replace (S (length sym + length stem + 4) - length (sym ++ [" "%char]))%nat
      with (length (stem ++ [x] ++ py "cpp"))
      by (rewrite !length_app; cbn; lia).
    replace (stem ++ x :: py "cpp" ++ tail)
      with ((stem ++ [x] ++ py "cpp") ++ tail)
      by (by rewrite <- !app_assoc).
    by rewrite take_app_length.
Qed.

(** X7.  The pattern accepts exactly the lines made of a symbol id
    without a newline, a space, a file name and at most a final
    newline, where the file name is one or more characters that are not
    white space, any character but a newline, and [cpp].  For such a
    line group 1 is the symbol id and group 2 the file name, also when
    the symbol id has spaces of its own. *)
Theorem line_pattern_shape (s : str) :
  (is_Some (re_match def_map_line s) ↔
   ∃ sym stem x tail,
     s = sym ++ py " " ++ (stem ++ [x] ++ py "cpp") ++ tail
     ∧ Forall (λ c, c ≠ newline) sym
     ∧ stem ≠ [] ∧ Forall (λ c, is_space c = false) stem
     ∧ x ≠ newline ∧ (tail = [] ∨ tail = [newline]))
  ∧ ∀ sym stem x tail,
      s = sym ++ py " " ++ (stem ++ [x] ++ py "cpp") ++ tail →
      Forall (λ c, c ≠ newline) sym →
      stem ≠ [] → Forall (λ c, is_space c = false) stem →
      x ≠ newline → tail = [] ∨ tail = [newline] →
      ∃ m, re_match def_map_line s = Some m
           ∧ group m 1 = sym
           ∧ group m 2 = stem ++ [x] ++ py "cpp".
Proof.
  split; [split|].
  - intros [m Hm].
    destruct (def_map_line_sound _ _ Hm)
      as (sym & stem & x & tail & Hs & _ & _ & Hne & Hstem & Hx & Hsym & Ht).
    by exists sym, stem, x, tail.
  - intros (sym & stem & x & tail & -> & Hsym & Hne & Hstem & Hx & Ht).
    destruct (def_map_line_complete sym stem x tail Hsym Hne Hstem Hx Ht)
      as (m & -> & _).
    by eexists.
  - intros sym stem x tail ->. apply def_map_line_complete.
Qed.

End line_pattern_complete.

Lemma line_pattern_shape_witness :
  ∃ m, Re.re_match Re.def_map_line (py "c:@F@op (int) src/a.cpp" ++ [LF]) = Some m
       ∧ Re.group m 1 = py "c:@F@op (int)"
       ∧ Re.group m 2 = py "src/a.cpp".
Proof.
  apply (proj2 (line_pattern_shape (py "c:@F@op (int) src/a.cpp" ++ [LF]))
           (py "c:@F@op (int)") (py "src/a") "."%char [LF]).
  - reflexivity.
  - vm_compute. repeat constructor; discriminate.
  - discriminate.
  - vm_compute. repeat constructor; discriminate.
  - discriminate.
  - by right.
Defined.

(** ** Absolute paths become relative *)

Lemma index_of_behind_fresh (a p b : str) (c : ascii) :
  head p = Some c → c ∉ a →
  index_of p (a ++ p ++ b) = Some (length a).
Proof.
  intros Hp Ha. induction a as [|d a IH].
  - cbn [app]. rewrite index_of_unfold. by rewrite startswith_app.
  - apply not_elem_of_cons in Ha as [Hcd Ha].
    cbn [app]. rewrite index_of_unfold.
    destruct p as [|c' p]; [done|]. injection Hp as ->.
    cbn [startswith]. rewrite (proj2 (Ascii.eqb_neq c d)) by done.
    cbn [andb]. rewrite IH by done. done.
Qed.

Lemma index_of_fresh_prefix (a p b : str) (c : ascii) :
  head p = Some c → c ∉ a →
  index_of p b = None → index_of p (a ++ b) = None.
Proof.
  intros Hp Ha Hb. induction a as [|d a IH]; [done|].
  apply not_elem_of_cons in Ha as [Hcd Ha].
  cbn [app]. rewrite index_of_unfold.
  destruct p as [|c' p]; [done|]. injection Hp as ->.
  cbn [startswith]. rewrite (proj2 (Ascii.eqb_neq c d)) by done.
  cbn [andb]. by rewrite IH.
Qed.

Lemma strip_cwd_behind_fresh (cwd before behind : str) :
  head cwd = Some "/"%char →
  "/"%char ∉ before →
  str_in (cwd ++ py "/") behind = false →
  strip_cwd cwd (before ++ cwd ++ py "/" ++ behind) = before ++ behind.
Proof.
  intros Habs Hfresh Hbehind. rewrite strip_cwd_scan.
  replace (before ++ cwd ++ py "/" ++ behind)
    with (before ++ (cwd ++ py "/") ++ behind) by (by rewrite <- app_assoc).
  rewrite replace_scan_leftmost.
  - f_equal. apply replace_scan_absent. unfold str_in in Hbehind.
    by destruct (index_of _ _).
  - apply cwd_slash_nonempty.
  - apply (index_of_behind_fresh _ _ _ "/"); [|done].
    by destruct cwd.
Qed.

(** X8.  In a working directory that is an absolute path, a line whose
    text before the first occurrence of the working directory has no
    slash, and whose text behind that occurrence holds no further one,
    leaves the step without the occurrence and otherwise unchanged: the
    absolute path in it has become relative, and a second pass changes
    nothing more. *)
Theorem strip_cwd_makes_relative (cwd before behind : str) :
  head cwd = Some "/"%char →
  "/"%char ∉ before →
  str_in (cwd ++ py "/") behind = false →
  strip_cwd cwd (before ++ cwd ++ py "/" ++ behind) = before ++ behind
  ∧ strip_cwd cwd (before ++ behind) = before ++ behind.
Proof.
  intros Habs Hfresh Hbehind. split; [by apply strip_cwd_behind_fresh|].
  rewrite strip_cwd_scan. apply replace_scan_absent.
  apply (index_of_fresh_prefix _ _ _ "/"); [by destruct cwd | done |].
  unfold str_in in Hbehind. by destruct (index_of _ _).
Qed.

Lemma strip_cwd_makes_relative_witness :
  strip_cwd (py "/proj") (py "9:c:@F@f# " ++ py "/proj" ++ py "/" ++ py "src/a.cpp")
  = py "9:c:@F@f# " ++ py "src/a.cpp".
Proof.
  apply (proj1 (strip_cwd_makes_relative (py "/proj") (py "9:c:@F@f# ")
                  (py "src/a.cpp") eq_refl
                  ltac:(vm_compute; intros H;
                        repeat (apply elem_of_cons in H as [H|H];
                                [discriminate|]);
                        by apply elem_of_nil in H)
                  eq_refl)).
Defined.

(** ** A line of a file of the list *)



(** ** The phases of [main] *)

Section main_facts.
Variable exec : World → Invocation → ProcOut.
Variable cwd : str.
Variable commands : gmap str CompileCommand.
Variable args : Args.

(** The analysis loop writes no file and prints nothing, however it
    ends. *)
Lemma analysis_frame (l : list str) (buf : str) (w w' : World)
    (r : result str) :
  analysis exec commands args l buf w = (r, w') →
  fs w' = fs w ∧ printed w' = printed w.
Proof.
  revert buf w; induction l as [|f l IH]; intros buf w; cbn [analysis].
  - by intros [= <- <-].
  - rewrite bind_unfold. unfold find at 1.
    destruct (commands !! f) as [cmd|]; [|by intros [= <- <-]].
    cbn. rewrite bind_unfold. unfold call at 1. cbv beta iota zeta.
    intros [Hfs Hpr]%IH. done.
Qed.

(** X10.  When a file of the list has no entry in the compilation
    database, the analysis loop raises [KeyError] for the first such
    file: the files before it have been analysed, one process each, the
    files behind it have not, and nothing is written, so the report
    gathered so far is lost. *)
Theorem analysis_missing_entry (before : list str) (f : str)
    (after : list str) (buf : str) (w : World) :
  Forall (λ g, is_Some (commands !! g)) before →
  commands !! f = None →
  ∃ w1 runs,
    analysis exec commands args (before ++ f :: after) buf w
    = (Raise (KeyError f), w1)
    ∧ procs w1 = procs w ++ runs
    ∧ Forall2 (λ g run, ∃ cmd, commands !! g = Some cmd
                               ∧ run.1 = analyze_invocation args cmd)
        before runs
    ∧ fs w1 = fs w
    ∧ printed w1 = printed w.
Proof.
  intros Hbefore Hf. revert buf w.
  induction Hbefore as [|g before [cmd Hg] _ IH]; intros buf w.
  - exists w, []. cbn [app analysis]. rewrite bind_unfold. unfold find.
    rewrite Hf. rewrite app_nil_r. by repeat split.
  - cbn [app analysis]. rewrite bind_unfold. unfold find at 1. rewrite Hg.
    cbn. rewrite bind_unfold. unfold call at 1. cbv beta iota zeta.
    edestruct IH as (w1 & runs & -> & Hp & Hall & Hfs & Hpr).
    eexists w1, (_ :: runs). split; [done|].
    cbn in Hp. rewrite Hp, <- app_assoc. split; [done|].
    split; [|done]. constructor; [|done]. by exists cmd.
Qed.

(** [compile_file] writes no file and prints nothing. *)
Lemma compile_file_frame (m : dict) (p : str) (w w' : World) (r : result unit) :
  compile_file exec cwd commands args m p w = (r, w') →
  fs w' = fs w ∧ printed w' = printed w.
Proof.
  unfold compile_file. destruct (dict_get m p); [|by intros [= <- <-]].
  rewrite bind_unfold. unfold find.
  destruct (commands !! p); [|by intros [= <- <-]].
  by intros [= <- <-].
Qed.

Lemma compile_file_Ok (m : dict) (p : str) (w w' : World) :
  compile_file exec cwd commands args m p w = (Ok (), w') →
  ∃ cmd ast_path,
    commands !! p = Some cmd ∧ dict_get m p = Some ast_path
    ∧ procs w' = procs w
        ++ [({| argv := emit_ast_argv cwd args ast_path cmd;
                run_cwd := Some (directory cmd) |},
             exec w {| argv := emit_ast_argv cwd args ast_path cmd;
                       run_cwd := Some (directory cmd) |})].
Proof.
  unfold compile_file. destruct (dict_get m p) as [ast_path|]; [|done].
  rewrite bind_unfold. unfold find.
  destruct (commands !! p) as [cmd|]; [|done].
  intros [= <-]. by exists cmd, ast_path.
Qed.

Lemma submit_all_cons (t : M unit) (ts : list (M unit)) (w : World) :
  submit_all (t :: ts) w =
    let '(r, w0) := t w in
    let '(rs, w1) := submit_all ts w0 in
    (match rs with Ok rs => Ok (r :: rs) | Raise e => Raise e end, w1).
Proof.
  cbn [submit_all]. rewrite bind_unfold. unfold submit at 1.
  destruct (t w) as [r w0]. rewrite bind_unfold.
  by destruct (submit_all ts w0) as [[rs|e] w1].
Qed.

(** The AST tasks: no file is written, nothing is printed, and if none
    of them raised, each has started one process. *)
Lemma submit_ast_jobs (m : dict) (jobs : list str) (w w1 : World)
    (rs : list (result unit)) :
  submit_all (map (compile_file exec cwd commands args m) jobs) w = (Ok rs, w1) →
  fs w1 = fs w ∧ printed w1 = printed w
  ∧ (Pool.first_failure rs = None →
     ∃ runs, procs w1 = procs w ++ runs
       ∧ Forall2 (λ f run, ∃ cmd ast_path,
                    commands !! f = Some cmd ∧ dict_get m f = Some ast_path
                    ∧ run.1 = {| argv := emit_ast_argv cwd args ast_path cmd;
                                 run_cwd := Some (directory cmd) |})
           jobs runs).
Proof.
  revert w rs; induction jobs as [|f jobs IH]; intros w rs.
  - intros [= <- <-]. repeat split. intros _. exists []. by rewrite app_nil_r.
  - cbn [map]. rewrite submit_all_cons.
    destruct (compile_file exec cwd commands args m f w) as [r w0] eqn:Hf.
    destruct (submit_all _ w0) as [[rs'|e] w2] eqn:Hrest; [|done].
    intros [= <- <-].
    destruct (IH _ _ Hrest) as (Hfs & Hpr & Hruns).
    destruct (compile_file_frame _ _ _ _ _ Hf) as [Hfs0 Hpr0].
    split; [congruence|]. split; [congruence|].
    destruct r as [[]|e]; [|done]. cbn [Pool.first_failure]. intros Hnone.
    destruct (Hruns Hnone) as (runs & Hp & Hall).
    destruct (compile_file_Ok _ _ _ _ Hf) as (cmd & ast_path & Hc & Hm & Hp0).
    eexists (_ :: runs). rewrite Hp, Hp0, <- app_assoc. split; [done|].
    constructor; [|done]. by exists cmd, ast_path.
Qed.

(** [main], phase by phase. *)
Lemma main_unfold (w : World) :
  let l := selected_files args in
  let m := build_ast_path_map l in
  let '(r0, w0) := generate_external_def_map exec cwd args m w in
  ∃ rs w1,
    submit_all (map (compile_file exec cwd commands args m) (ast_jobs l)) w0
    = (Ok rs, w1)
    ∧ main exec cwd commands args w =
        match Pool.first_failure (r0 :: rs) with
        | Some e => (Raise e, w1)
        | None => (analysis exec commands args l [] ≫= report) w1
        end.
Proof.
  intros l m.
  destruct (generate_external_def_map exec cwd args m w) as [r0 w0] eqn:Hgen.
  destruct (submit_all_total
              (map (compile_file exec cwd commands args m) (ast_jobs l)) w0)
    as (rs & w1 & Hrs & _).
  exists rs, w1. split; [done|].
  unfold main. fold l. unfold phase_one_tasks. fold m.
  rewrite bind_unfold, submit_all_cons, Hgen, Hrs, bind_unfold.
  rewrite for_each_future_result.
  by destruct (Pool.first_failure (r0 :: rs)).
Qed.

End main_facts.

Lemma analysis_missing_entry_witness :
  ∃ w1 runs,
    analysis Sample.warner Sample.commands
      (Sample.args [py "b.cpp"; py "zz.cpp"; py "a.cpp"])
      [py "b.cpp"; py "zz.cpp"; py "a.cpp"] [] Sample.nothing
    = (Raise (KeyError (py "zz.cpp")), w1)
    ∧ procs w1 = procs Sample.nothing ++ runs
    ∧ length runs = 1%nat
    ∧ fs w1 = ∅.
Proof.
  destruct (analysis_missing_entry Sample.warner Sample.commands
              (Sample.args [py "b.cpp"; py "zz.cpp"; py "a.cpp"])
              [py "b.cpp"] (py "zz.cpp") [py "a.cpp"] []
              Sample.nothing) as (w1 & runs & Hrun & Hp & Hall & Hfs & _).
  - constructor; [by_evaluation | constructor].
  - reflexivity.
  - exists w1, runs. split; [exact Hrun|]. split; [exact Hp|].
    split; [symmetry; exact (Forall2_length _ _ _ Hall) | exact Hfs].
Defined.


Section main_theorems.
Variable exec : World → Invocation → ProcOut.
Variable cwd : str.
Variable commands : gmap str CompileCommand.
Variable args : Args.


(** X12.  However [main] ends, it leaves every file alone but the two
    definition maps and the results file.  The results file changes in
    one case only: when [main] returns -1, a report that is not empty
    has been appended to what the file held.  When [main] returns 0 or
    raises, the results file is as it was; and when [main] returns, it
    has printed nothing. *)
Theorem main_files (w w' : World) (r : result Z) :
  main exec cwd commands args w = (r, w') →
  (∀ name, name ≠ org_map → name ≠ final_map → name ≠ results_file →
           fs w' !! name = fs w !! name)
  ∧ (r ≠ Ok (-1) → fs w' !! results_file = fs w !! results_file)
  ∧ (r = Ok (-1) →
     ∃ fixNeeded, fixNeeded ≠ []
       ∧ fs w' !! results_file
         = Some (default [] (fs w !! results_file) ++ fixNeeded))
  ∧ (∀ c, r = Ok c → printed w' = printed w).
Proof.
  intros Hmain.
  pose proof (main_unfold exec cwd commands args w) as Hun.
  cbv zeta in Hun. set (l := selected_files args) in *.
  pose proof (generate_external_def_map_unfold exec cwd args
                (build_ast_path_map l) w) as Hgen.
  cbv zeta in Hgen.
  destruct (generate_external_def_map exec cwd args (build_ast_path_map l) w)
    as [r0 w0].
  destruct Hun as (rs & w1 & Hrs & Hm). rewrite Hmain in Hm.
  symmetry in Hgen. apply def_map_loop_frame in Hgen as (_ & Hfs0 & Hpr0).
  cbn [fs printed] in Hfs0, Hpr0.
  destruct (submit_ast_jobs _ _ _ _ _ _ _ _ _ Hrs) as (Hfs1 & Hpr1 & _).
  assert (Hres0 : fs w1 !! results_file = fs w !! results_file).
  { rewrite Hfs1, Hfs0 by by_evaluation.
    by rewrite !lookup_insert_ne by by_evaluation. }
  assert (Hother : ∀ name, name ≠ org_map → name ≠ final_map →
                     fs w1 !! name = fs w !! name).
  { intros name Ho Hf. rewrite Hfs1, Hfs0 by done.
    by rewrite !lookup_insert_ne. }
  destruct (Pool.first_failure (r0 :: rs)) as [e|] eqn:Hfail.
  { injection Hm as -> ->. split; [by auto|]. split; [done|]. split; done. }
  destruct r0 as [[]|e0]; [|done].
  destruct (analysis exec commands args l [] w1) as [[buf|e] w2] eqn:Hana.
  - destruct (analysis_frame _ _ _ _ _ _ _ _ Hana) as [Hfs2 Hpr2].
    rewrite bind_unfold, Hana in Hm. unfold report in Hm.
    case_bool_decide as Hbuf.
    + injection Hm as -> ->. rewrite Hfs2.
      split; [by auto|]. split; [done|]. split; [done|].
      intros c _. rewrite Hpr2, Hpr1. by apply Hpr0.
    + rewrite bind_unfold in Hm. unfold write at 1 in Hm.
      cbv beta iota in Hm. injection Hm as -> ->.
      unfold set_file. cbn [fs printed procs]. rewrite Hfs2. split; [|split; [done|split]].
      * intros name Ho Hf Hr. rewrite lookup_insert_ne by done. by apply Hother.
      * intros _. exists buf. split; [done|].
        by rewrite lookup_insert_eq, Hres0.
      * intros c _. rewrite Hpr2, Hpr1. by apply Hpr0.
  - destruct (analysis_frame _ _ _ _ _ _ _ _ Hana) as [Hfs2 Hpr2].
    rewrite bind_unfold, Hana in Hm. injection Hm as -> ->. rewrite Hfs2.
    split; [by auto|]. split; [done|]. split; done.
Qed.

End main_theorems.


Lemma main_files_witness :
  ∃ fixNeeded,
    fixNeeded ≠ []
    ∧ fs (main Sample.warner (py "/proj") Sample.commands
            (Sample.args [py "a.cpp"; py "b.cpp"])
            {| fs := {[ results_file := py "earlier report" ]};
               printed := []; procs := [] |}).2
      !! results_file
      = Some (py "earlier report" ++ fixNeeded).
Proof.
  destruct (main Sample.warner (py "/proj") Sample.commands
              (Sample.args [py "a.cpp"; py "b.cpp"])
              {| fs := {[ results_file := py "earlier report" ]};
                 printed := []; procs := [] |})
    as [r w'] eqn:Hmain.
  assert (Hr : r = Ok (-1)).
  { pose proof Hmain as H. vm_compute in H. by injection H as <- _. }
  destruct (main_files _ _ _ _ _ _ _ Hmain) as (_ & _ & Hres & _).
  destruct (Hres Hr) as (fixNeeded & Hne & Hfs).
  exists fixNeeded. split; [exact Hne | exact Hfs].
Defined.

(** ** Reading the intermediate map *)

Lemma split_lines_concat (cur s : str) :
  concat (split_lines cur s) = cur ++ s.
Proof.
  revert cur; induction s as [|c s IH]; intros cur; cbn [split_lines].
  - destruct cur; [done|]. cbn. by rewrite !app_nil_r.
  - destruct (Ascii.eqb c LF).
    + cbn [concat]. rewrite IH. by rewrite <- app_assoc.
    + rewrite IH. by rewrite <- app_assoc.
Qed.

Lemma split_lines_shape (cur s : str) :
  LF ∉ cur →
  Forall (λ line, ∃ body, (LF ∉ body)
                          ∧ (line = body ++ [LF] ∨ (line = body ∧ body ≠ [])))
    (split_lines cur s).
Proof.
  revert cur; induction s as [|c s IH]; intros cur Hcur; cbn [split_lines].
  - destruct cur as [|d cur]; [constructor|].
    constructor; [|constructor]. exists (d :: cur). split; [done|]. by right.
  - destruct (Ascii.eqb c LF) eqn:Hc.
    + apply Ascii.eqb_eq in Hc as ->. constructor.
      * exists cur. split; [done|]. by left.
      * apply IH. apply not_elem_of_nil.
    + apply IH. apply Ascii.eqb_neq in Hc.
      intros [H | H%list_elem_of_singleton]%elem_of_app; [done | congruence].
Qed.

Lemma translate_newlines_no_CR (s : str) :
  (CR ∉ translate_newlines s) ∧ ∀ c, CR ∉ translate_newlines (c :: s).
Proof.
  induction s as [|d s [IH1 IH2]].
  - split; [apply not_elem_of_nil|]. intros c. cbn [translate_newlines].
    destruct (Ascii.eqb c CR) eqn:Hc.
    + intros [H | H%elem_of_nil]%elem_of_cons; [discriminate | done].
    + apply Ascii.eqb_neq in Hc.
      intros [H | H%elem_of_nil]%elem_of_cons; [congruence | done].
  - split; [apply IH2|]. intros c. cbn [translate_newlines].
    destruct (Ascii.eqb c CR) eqn:Hc.
    + destruct (Ascii.eqb d LF).
      * intros [H | H]%elem_of_cons; [discriminate | done].
      * intros [H | H]%elem_of_cons; [discriminate | by apply (IH2 d)].
    + apply Ascii.eqb_neq in Hc.
      intros [H | H]%elem_of_cons; [congruence | by apply (IH2 d)].
Qed.

Lemma split_lines_last_only (cur s : str) (before : list str) (line : str)
    (after : list str) :
  split_lines cur s = before ++ line :: after → after ≠ [] →
  ∃ body, line = body ++ [LF].
Proof.
  revert cur before; induction s as [|c s IH]; intros cur before;
    cbn [split_lines].
  - intros H Hafter. apply (f_equal length) in H. rewrite length_app in H.
    destruct after; [done|]. destruct cur; cbn in H; lia.
  - destruct (Ascii.eqb c LF) eqn:Hc; [|apply IH].
    apply Ascii.eqb_eq in Hc as ->.
    destruct before as [|b before]; cbn [app].
    + intros [= <- _] _. by exists cur.
    + intros [= _ H]. by eapply IH.
Qed.

Lemma elem_of_concat_intro {A} (x : A) (l : list A) (ls : list (list A)) :
  l ∈ ls → x ∈ l → x ∈ concat ls.
Proof.
  induction 1 as [|l0 ls Hl IH]; intros Hx; cbn; apply elem_of_app; auto.
Qed.

(** X13.  The lines read from a file, put together again, are the text
    of the file with every CR LF and every lone CR turned into LF:
    nothing is lost and nothing added.  No line is empty, no line holds
    a CR, and a line holds an LF only as its last character; only the
    last line can be without one. *)
Theorem readlines_partition (content : str) :
  concat (readlines content) = translate_newlines content
  ∧ Forall (λ line, ∃ body, (LF ∉ body) ∧ (CR ∉ line)
                            ∧ (line = body ++ [LF] ∨ (line = body ∧ body ≠ [])))
      (readlines content)
  ∧ ∀ before line after,
      readlines content = before ++ line :: after → after ≠ [] →
      ∃ body, line = body ++ [LF].
Proof.
  unfold readlines. split; [apply split_lines_concat|].
  pose proof (split_lines_shape [] (translate_newlines content)
                (not_elem_of_nil _)) as Hshape.
  pose proof (split_lines_concat [] (translate_newlines content)) as Hcat.
  pose proof (proj1 (translate_newlines_no_CR content)) as Hcr.
  cbn [app] in Hcat. rewrite <- Hcat in Hcr.
  split.
  - apply Forall_forall. intros line Hline.
    destruct (proj1 (Forall_forall _ _) Hshape line Hline) as (body & Hb & H).
    exists body. split; [done|]. split; [|done].
    intros Hin. apply Hcr. by eapply elem_of_concat_intro.
  - intros before line after Hsplit Hafter.
    apply (split_lines_last_only [] (translate_newlines content)
             before line after); done.
Qed.

Lemma readlines_partition_witness :
  ∃ body, py "a" ++ [LF] = body ++ [LF].
Proof.
  exact (proj2 (proj2 (readlines_partition (py "a" ++ [CR; LF] ++ py "b")))
           [] (py "a" ++ [LF]) [py "b"] eq_refl ltac:(discriminate)).
Defined.

(** ** What stripping can do to a line *)

Lemma replace_scan_sublist (old : str) (k : nat) (s : str) :
  replace_scan old [] k s `sublist_of` s.
Proof.
  revert k; induction s as [|c s IH]; intros k; [done|].
  cbn [replace_scan]. destruct k as [|k]; [|by apply sublist_cons].
  destruct (startswith (c :: s) old).
  - cbn [app]. by apply sublist_cons.
  - by apply sublist_skip.
Qed.

(** X14.  Stripping the working directory only deletes characters: the
    result is the line with some of its characters left out, in the
    same order; and it is the line itself exactly when the line holds
    no occurrence of the working directory followed by a slash. *)
Theorem strip_cwd_only_deletes (cwd line : str) :
  strip_cwd cwd line `sublist_of` line
  ∧ (strip_cwd cwd line = line ↔ str_in (cwd ++ py "/") line = false).
Proof.
  rewrite strip_cwd_scan. split; [apply replace_scan_sublist|]. split.
  - intros Heq. destruct (str_in _ _) eqn:Hin; [|done].
    apply replace_scan_shrinks in Hin; [|apply cwd_slash_nonempty].
    rewrite Heq in Hin. lia.
  - unfold str_in. destruct (index_of _ _) eqn:H; [done|]. intros _.
    by apply replace_scan_absent.
Qed.

(** ** The path of a tool *)

Lemma endswith_app (a b : str) : endswith (a ++ b) b = true.
Proof. unfold endswith. rewrite reverse_app. apply startswith_app. Qed.

Lemma os_path_join_endswith (a b : str) : endswith (os_path_join a b) b = true.
Proof.
  unfold os_path_join. destruct (startswith b (py "/")).
  - apply (endswith_app [] b).
  - destruct (_ || _); [apply endswith_app|].
    rewrite app_assoc. apply endswith_app.
Qed.

(** X15.  The path under which a tool is started always ends in the
    file name of the tool.  Without [--llvm-bin-dir], or with an empty
    one, it is the file name alone, to be found on the search path;
    with a directory, and a file name that does not begin with a slash,
    it is the directory, a slash unless the directory already ends in
    one, and the file name. *)
Theorem tool_path (args : Args) (filename : str) :
  endswith (llvm_binary_path args filename) filename = true
  ∧ (llvm_bin_dir args = None ∨ llvm_bin_dir args = Some [] →
     llvm_binary_path args filename = filename)
  ∧ ∀ dir, llvm_bin_dir args = Some dir → dir ≠ [] →
      startswith filename (py "/") = false →
      llvm_binary_path args filename
      = dir ++ (if endswith dir (py "/") then [] else py "/") ++ filename.
Proof.
  unfold llvm_binary_path. split; [|split].
  - destruct (llvm_bin_dir args) as [[|c d]|];
      [apply (endswith_app [] filename) | apply os_path_join_endswith
      | apply (endswith_app [] filename)].
  - by intros [-> | ->].
  - intros dir -> Hdir Hrel. destruct dir as [|c d]; [done|].
    unfold os_path_join. rewrite Hrel.
    rewrite bool_decide_eq_false_2 by done. cbn [orb].
    by destruct (endswith (c :: d) (py "/")).
Qed.

Lemma tool_path_witness :
  llvm_binary_path
    {| source_dir := py "."; llvm_bin_dir := Some (py "/usr/lib/llvm-12/bin/");
       exclude := None; files := [] |} (py "clang++")
  = py "/usr/lib/llvm-12/bin/" ++ [] ++ py "clang++".
Proof.
  exact (proj2 (proj2 (tool_path
                         {| source_dir := py ".";
                            llvm_bin_dir := Some (py "/usr/lib/llvm-12/bin/");
                            exclude := None; files := [] |} (py "clang++")))
           (py "/usr/lib/llvm-12/bin/") eq_refl ltac:(discriminate) eq_refl).
Defined.

(** ** Failures of phase one *)

Section phase_one_failures.
Variable exec : World → Invocation → ProcOut.
Variable cwd : str.
Variable commands : gmap str CompileCommand.
Variable args : Args.




End phase_one_failures.


(** ** The pool makes progress *)

Section pool_progress.
Import Pool.
Variable outcomes : list (result unit).
Variable nfiles : nat.

Lemma pool_wf_init : pool_wf outcomes init.
Proof.
  unfold pool_wf, submitted; cbn. repeat split; try lia.
  intros i H. by apply elem_of_empty in H.
Qed.

Lemma pool_wf_do_action (a : action) (st st' : state) :
  pool_wf outcomes st → do_action outcomes nfiles a st = Some st' →
  pool_wf outcomes st'.
Proof.
  intros (Hfin & Hstart & Hsub & Hrun). destruct a as [|i|]; cbn.
  - case_decide as Hg; [|done]. intros [= <-]. destruct Hg as [Hg1 Hg2].
    unfold pool_wf, submitted in *; cbn. repeat split; try lia.
    intros i Hi. apply Hfin in Hi. lia.
  - case_decide as Hg; [|done]. intros [= <-]. destruct Hg as [Hg1 Hg2].
    unfold pool_wf, submitted in *; cbn. repeat split; try lia.
    + intros j [->%elem_of_singleton | Hj]%elem_of_union; [done | by apply Hfin].
    + rewrite size_union by set_solver. rewrite size_singleton. lia.
  - unfold main_step, pool_wf, submitted, ntasks, goto in *.
    destruct (at_pc st) as [j|i|k|e|] eqn:Hat; [| | |done..].
    + case_decide; intros [= <-]; cbn; repeat split; (done || lia).
    + destruct (outcomes !! i) as [r|].
      * case_decide; [|done].
        destruct r; intros [= <-]; cbn; repeat split; (done || lia).
      * intros [= <-]; cbn; repeat split; (done || lia).
    + case_decide; intros [= <-]; cbn; repeat split; (done || lia).
Qed.

Lemma run_schedule_app (s1 s2 : list action) (st : state) :
  run_schedule outcomes nfiles (s1 ++ s2) st =
    run_schedule outcomes nfiles s1 st ≫= run_schedule outcomes nfiles s2.
Proof.
  revert st; induction s1 as [|a s1 IH]; intros st; cbn [app run_schedule].
  - done.
  - destruct (do_action outcomes nfiles a st); [apply IH | done].
Qed.

Lemma pool_wf_run (sched : list action) (st st' : state) :
  pool_wf outcomes st → run_schedule outcomes nfiles sched st = Some st' →
  pool_wf outcomes st'.
Proof.
  revert st; induction sched as [|a sched IH]; intros st Hwf; cbn.
  - by intros [= <-].
  - destruct (do_action outcomes nfiles a st) as [st0|] eqn:Ha; [|done].
    cbn. apply IH. by eapply pool_wf_do_action.
Qed.

Lemma finish_submitting (n : nat) (st : state) (j : nat) :
  at_pc st = Submitting j → (j + n = ntasks outcomes)%nat →
  ∃ sched st', run_schedule outcomes nfiles sched st = Some st'
               ∧ ∃ i, at_pc st' = Awaiting i.
Proof.
  revert st j; induction n as [|n IH]; intros st j Hat Hj.
  - exists [MainStep], (goto (Awaiting 0) st). split; [|by exists 0%nat].
    cbn. unfold main_step. rewrite Hat. rewrite decide_False by lia. done.
  - destruct (IH (goto (Submitting (S j)) st) (S j)) as (sched & st' & Hrun & H);
      [done | lia |].
    exists (MainStep :: sched), st'. split; [|done].
    cbn. unfold main_step. rewrite Hat. rewrite decide_True by lia. done.
Qed.

Lemma finish_started (st : state) (k : nat) :
  (k ≤ started st)%nat →
  ∃ sched st', run_schedule outcomes nfiles sched st = Some st'
               ∧ at_pc st' = at_pc st ∧ started st' = started st
               ∧ finished st ⊆ finished st'
               ∧ (∀ i, i ∈ finished st' → i ∈ finished st ∨ (i < k)%nat)
               ∧ ∀ i, (i < k)%nat → i ∈ finished st'.
Proof.
  induction k as [|k IH]; intros Hk.
  - exists [], st. repeat split; [done | by left | lia].
  - destruct IH as (sched & st1 & Hrun & Hat & Hst & Hsub & Hold & Hall); [lia|].
    destruct (decide (k ∈ finished st1)) as [Hin|Hout].
    + exists sched, st1. repeat split; try done.
      * intros i Hi. destruct (Hold i Hi); [by left | right; lia].
      * intros i Hi. destruct (decide (i = k)) as [->|]; [done|].
        apply Hall. lia.
    + exists (sched ++ [Finish k]),
        {| at_pc := at_pc st1; started := started st1;
           finished := {[k]} ∪ finished st1;
           trace := trace st1 ++ [TaskDone k] |}.
      split.
      { rewrite run_schedule_app, Hrun. cbn.
        rewrite decide_True; [done|]. split; [lia | done]. }
      cbn. repeat split; try done.
      * set_solver.
      * intros i [->%elem_of_singleton | Hi]%elem_of_union; [right; lia|].
        destruct (Hold i Hi); [by left | right; lia].
      * intros i Hi. destruct (decide (i = k)) as [->|]; [set_solver|].
        apply elem_of_union. right. apply Hall. lia.
Qed.

Lemma size_below (X : gset nat) (s : nat) :
  (∀ i, (i < s)%nat → i ∈ X) → (s ≤ size X)%nat.
Proof.
  intros H.
  assert (Hsub : (list_to_set (seq 0 s) : gset nat) ⊆ X).
  { intros i Hi%elem_of_list_to_set%elem_of_seq. apply H. lia. }
  apply subseteq_size in Hsub.
  rewrite size_list_to_set in Hsub by apply NoDup_seq.
  by rewrite length_seq in Hsub.
Qed.

Lemma start_remaining (n : nat) (st : state) :
  pool_wf outcomes st →
  submitted outcomes st = ntasks outcomes →
  (started st + n = ntasks outcomes)%nat →
  (∀ i, (i < started st)%nat → i ∈ finished st) →
  ∃ sched st', run_schedule outcomes nfiles sched st = Some st'
               ∧ at_pc st' = at_pc st
               ∧ ∀ i, (i < ntasks outcomes)%nat → i ∈ finished st'.
Proof.
  revert st; induction n as [|n IH]; intros st Hwf Hsub Hn Hall.
  - exists [], st. repeat split. intros i Hi. apply Hall. lia.
  - set (st1 := {| at_pc := at_pc st; started := S (started st);
                   finished := finished st;
                   trace := trace st ++ [TaskStarted (started st)] |}).
    set (st2 := {| at_pc := at_pc st1; started := started st1;
                   finished := {[started st]} ∪ finished st1;
                   trace := trace st1 ++ [TaskDone (started st)] |}).
    assert (H1 : do_action outcomes nfiles Start st = Some st1).
    { cbn. rewrite decide_True; [done|]. split; [lia|].
      pose proof (size_below _ _ Hall). unfold max_workers. lia. }
    assert (H2 : do_action outcomes nfiles (Finish (started st)) st1 = Some st2).
    { cbn. rewrite decide_True; [done|]. split; [lia|].
      destruct Hwf as (Hfin & _). intros Hin%Hfin. lia. }
    destruct (IH st2) as (sched & st' & Hrun & Hat & Hdone).
    + eapply pool_wf_do_action; [|exact H2].
      by eapply pool_wf_do_action; [|exact H1].
    + done.
    + cbn. lia.
    + cbn. intros i Hi. destruct (decide (i = started st)) as [->|].
      * set_solver.
      * apply elem_of_union. right. apply Hall. lia.
    + exists (Start :: Finish (started st) :: sched), st'.
      split; [|done]. cbn [run_schedule]. rewrite H1. cbn [mbind option_bind].
      rewrite H2. done.
Qed.

Lemma analysing_finishes (n : nat) (st : state) (k : nat) :
  at_pc st = Analysing k → (nfiles - k = n)%nat →
  ∃ sched st', run_schedule outcomes nfiles sched st = Some st'
               ∧ pool_terminal st'.
Proof.
  revert st k; induction n as [|n IH]; intros st k Hat Hn.
  - exists [MainStep], (goto Returned st). split; [|by left].
    cbn. unfold main_step. rewrite Hat. rewrite decide_False by lia. done.
  - set (st1 := {| at_pc := Analysing (S k); started := started st;
                   finished := finished st;
                   trace := trace st ++ [AnalyzerStarted k] |}).
    destruct (IH st1 (S k)) as (sched & st' & Hrun & Hterm); [done | lia |].
    exists (MainStep :: sched), st'. split; [|done].
    cbn. unfold main_step. rewrite Hat. rewrite decide_True by lia. done.
Qed.

Lemma awaiting_finishes (n : nat) (st : state) (i : nat) :
  at_pc st = Awaiting i → (ntasks outcomes - i = n)%nat →
  (∀ j, (j < ntasks outcomes)%nat → j ∈ finished st) →
  ∃ sched st', run_schedule outcomes nfiles sched st = Some st'
               ∧ pool_terminal st'.
Proof.
  revert st i; induction n as [|n IH]; intros st i Hat Hn Hall;
    destruct (outcomes !! i) as [r|] eqn:Hi.
  - apply lookup_lt_Some in Hi. unfold ntasks in Hn. lia.
  - destruct (analysing_finishes (nfiles - 0) (goto (Analysing 0) st) 0)
      as (sched & st' & Hrun & Hterm); [done..|].
    exists (MainStep :: sched), st'. split; [|done].
    cbn. unfold main_step. by rewrite Hat, Hi.
  - assert (Hfin : i ∈ finished st).
    { apply Hall. by apply lookup_lt_Some in Hi. }
    destruct r as [[]|e].
    + destruct (IH (goto (Awaiting (S i)) st) (S i))
        as (sched & st' & Hrun & Hterm); [done | lia | done |].
      exists (MainStep :: sched), st'. split; [|done].
      cbn. unfold main_step. rewrite Hat, Hi. by rewrite decide_True.
    + exists [MainStep], (goto (Propagated e) st). split; [|right; by exists e].
      cbn. unfold main_step. rewrite Hat, Hi. by rewrite decide_True.
  - apply lookup_ge_None in Hi. unfold ntasks in Hn. lia.
Qed.

Lemma reachable_wf (st : state) :
  reachable outcomes nfiles st → pool_wf outcomes st.
Proof.
  intros [sched H]. eapply pool_wf_run; [apply pool_wf_init | exact H].
Qed.

(** X17.  The pool cannot get stuck.  In every state that the pool and
    the main thread can reach, a finished task has been started, a
    started task has been submitted, and at most 16 tasks are running;
    and from every such state the run can go on until [main] has
    returned or has raised out of [result()]: no order in which the
    workers finish leaves the main thread waiting for ever. *)
Theorem pool_progress (st : state) :
  reachable outcomes nfiles st →
  pool_wf outcomes st
  ∧ ∃ sched st', run_schedule outcomes nfiles sched st = Some st'
                 ∧ pool_terminal st'.
Proof.
  intros Hwf%reachable_wf. split; [done|].
  assert (HA : ∃ sA stA, run_schedule outcomes nfiles sA st = Some stA
                         ∧ ∀ j, at_pc stA ≠ Submitting j).
  { destruct (at_pc st) as [j|i|k|e|] eqn:Hat;
      [|exists [], st; split; [done|]; intros j; by rewrite Hat..].
    destruct (finish_submitting (ntasks outcomes - j) st j Hat)
      as (sA & stA & Hrun & i & Hi).
    - destruct Hwf as (_ & _ & Hsub & _). unfold submitted in Hsub.
      rewrite Hat in Hsub. unfold ntasks. lia.
    - exists sA, stA. split; [done|]. intros j'. by rewrite Hi. }
  destruct HA as (sA & stA & HrunA & HnoSub).
  pose proof (pool_wf_run _ _ _ Hwf HrunA) as HwfA.
  destruct (finish_started stA (started stA))
    as (sB & stB & HrunB & HatB & HstB & _ & _ & HallB); [done|].
  pose proof (pool_wf_run _ _ _ HwfA HrunB) as HwfB.
  assert (HsubB : submitted outcomes stB = ntasks outcomes).
  { unfold submitted. rewrite HatB.
    destruct (at_pc stA) eqn:HatA; [by destruct (HnoSub j) | done..]. }
  destruct (start_remaining (ntasks outcomes - started stB) stB)
    as (sC & stC & HrunC & HatC & HallC); [done | done | | |].
  { destruct HwfB as (_ & H1 & H2 & _). rewrite HsubB in H1. lia. }
  { intros i Hi. apply HallB. by rewrite <- HstB. }
  assert (HD : ∃ sD stD, run_schedule outcomes nfiles sD stC = Some stD
                         ∧ pool_terminal stD).
  { destruct (at_pc stC) as [j|i|k|e|] eqn:Hat.
    - destruct (HnoSub j). by rewrite <- HatB, <- HatC.
    - by apply (awaiting_finishes (ntasks outcomes - i) stC i).
    - by apply (analysing_finishes (nfiles - k) stC k).
    - exists [], stC. split; [done|]. right. by exists e.
    - exists [], stC. split; [done|]. by left. }
  destruct HD as (sD & stD & HrunD & Hterm).
  exists (sA ++ sB ++ sC ++ sD), stD. split; [|done].
  rewrite run_schedule_app, HrunA. cbn [mbind option_bind].
  rewrite run_schedule_app, HrunB. cbn [mbind option_bind].
  rewrite run_schedule_app, HrunC. cbn [mbind option_bind]. done.
Qed.

End pool_progress.

Lemma pool_progress_witness :
  ∃ st,
    Pool.run_schedule [Ok (); Raise (KeyError (py "x.cpp")); Ok ()] 1
      [Pool.MainStep; Pool.Start; Pool.MainStep; Pool.MainStep; Pool.Start]
      Pool.init
    = Some st
    ∧ pool_wf [Ok (); Raise (KeyError (py "x.cpp")); Ok ()] st
    ∧ ∃ sched st',
        Pool.run_schedule [Ok (); Raise (KeyError (py "x.cpp")); Ok ()] 1
          sched st
        = Some st'
        ∧ pool_terminal st'.
Proof.
  destruct (Pool.run_schedule [Ok (); Raise (KeyError (py "x.cpp")); Ok ()] 1
              [Pool.MainStep; Pool.Start; Pool.MainStep; Pool.MainStep;
               Pool.Start] Pool.init) as [st|] eqn:Hrun;
    [|by vm_compute in Hrun].
  exists st. split; [reflexivity|].
  exact (pool_progress _ _ st (ex_intro _ _ Hrun)).
Defined.
